(** * unchanged: path walker, container factory and deep merge (src/utils.js)

    A shallow embedding of [src/utils.js].  JavaScript objects live in a
    heap of cells addressed by natural numbers, so that reference identity
    ([===] on objects) is equality of addresses and "mutates no node" is a
    statement about the cells of the heap.

    The host fragment that is modelled:
    - values: [undefined], [null], booleans, integer numbers, [NaN],
      strings, registered symbols and references to heap cells (functions
      are cells too, of a shape of their own);
    - cells: arrays (their elements and their named own properties) and
      objects (a shape, which stands for the prototype, and their own
      enumerable properties in insertion order);
    - a property read looks at own properties, at the elements and the
      [length] of an array and at the characters and the [length] of a
      string.  Members inherited from the built-in prototypes are not part
      of the fragment: a name that an object does not own reads as
      [undefined];
    - an assignment creates or updates an own data property, and the
      [length] of an array is the exotic property of the host: assigning a
      valid length truncates or extends the array, and assigning another
      value throws a RangeError.  Where the host would first convert the
      value by parsing text or by running code of an object, the model
      stops with [Unmodelled].  The name [__proto__] is not a key of the
      fragment: on an object that does not own it the host runs the setter
      inherited from [Object.prototype], where the model would create an
      own property, so the properties that depend on it are stated for
      paths and keys without it;
    - a string is the sequence of its UTF-16 code units, of which the
      fragment has those below 256: a character of a [string] stands for
      one code unit;
    - the own properties of an object are kept in the order of their
      creation, where the host lists names that are array indices first;
      a hole of an array is an element that is [undefined].  The source
      asks for the keys of no array, and no property stated here depends on
      the order of keys;
    - the module is strict code: assigning a property of a primitive throws.

    A path is a list of keys; parsing a path written as text is the work of
    the external [pathington] package and is not modelled. *)

From Stdlib Require Import ZArith Lia Ascii String DecimalString DecimalNat.
From stdpp Require Import base list strings.

Local Open Scope string_scope.
Local Open Scope list_scope.

(* ===================================================================== *)
(** * Values, keys and heap cells *)
(* ===================================================================== *)

Inductive value : Type :=
| VUndef
| VNull
| VBool (b : bool)
| VNum (n : Z)
| VNaN
| VStr (s : string)
| VSym (s : string)
| VRef (a : nat).

Arguments VNum n%_Z.

(** A path step: an array index or a property name. *)
Inductive key : Type :=
| Index (n : nat)
| Name (s : string).

(** The shape of an object stands for its prototype and constructor:
    plain ([constructor === Object]), date, regular expression, function,
    another built-in whose constructor is native code, or an instance of a
    constructor written by the user ([proto] names the prototype; an object
    without constructor is of this kind too). *)
Inductive shape : Type :=
| Plain
| DateObj
| RegExpObj
| FunctionObj
| Native
| Custom (proto : nat).

Inductive cell : Type :=
| Arr (elems : list value) (named : list (string * value))
| Obj (sh : shape) (props : list (string * value)).

Abbreviation heap := (list cell).

#[global] Instance value_eq_dec : EqDecision value.
Proof. solve_decision. Defined.
#[global] Instance key_eq_dec : EqDecision key.
Proof. solve_decision. Defined.
#[global] Instance shape_eq_dec : EqDecision shape.
Proof. solve_decision. Defined.
#[global] Instance cell_eq_dec : EqDecision cell.
Proof. solve_decision. Defined.

(* ===================================================================== *)
(** * Property names *)
(* ===================================================================== *)

(** [String(n)] for an index. *)
Definition string_of_index (n : nat) : string :=
  NilZero.string_of_uint (Nat.to_uint n).

(** The property name a key denotes ([ToPropertyKey]). *)
Definition key_name (k : key) : string :=
  match k with
  | Index n => string_of_index n
  | Name s => s
  end.

(** A name is an array index when it is the canonical decimal form of a
    number. *)
Definition name_index (s : string) : option nat :=
  match NilZero.uint_of_string s with
  | Some u =>
      let n := Nat.of_uint u in
      if decide (string_of_index n = s) then Some n else None
  | None => None
  end.

(** The array indices of the host are the numbers below [2^32 - 1]; a
    number from there on names an ordinary property of an array. *)
Definition array_index (n : nat) : bool :=
  (4294967295 >? Z.of_nat n)%Z.

(** Where a key lands in an array: in an element, in the [length], or in a
    named property. *)
Inductive slot : Type :=
| SIdx (n : nat)
| SLength
| SNamed (s : string).

#[global] Instance slot_eq_dec : EqDecision slot.
Proof. solve_decision. Defined.

Definition array_slot (k : key) : slot :=
  match k with
  | Index n => if array_index n then SIdx n else SNamed (string_of_index n)
  | Name s =>
      if decide (s = "length") then SLength
      else match name_index s with
           | Some n => if array_index n then SIdx n else SNamed s
           | None => SNamed s
           end
  end.

(** [path[index]]; out of range it is [undefined], which as a property key
    is the name ["undefined"] and is not of type number. *)
Definition path_at (path : list key) (index : nat) : key :=
  default (Name "undefined") (path !! index).

(* ===================================================================== *)
(** * Own properties *)
(* ===================================================================== *)

Fixpoint own_lookup (s : string) (ps : list (string * value)) : option value :=
  match ps with
  | [] => None
  | (s', v) :: ps' => if decide (s' = s) then Some v else own_lookup s ps'
  end.

(** Assignment keeps the position of a property that exists and appends a
    new one. *)
Fixpoint own_insert (s : string) (v : value) (ps : list (string * value))
  : list (string * value) :=
  match ps with
  | [] => [(s, v)]
  | (s', v') :: ps' =>
      if decide (s' = s) then (s', v) :: ps' else (s', v') :: own_insert s v ps'
  end.

(** [arr[n] = v]: inside the array the element is replaced, outside the
    array grows and the holes read as [undefined]. *)
Definition elems_set (n : nat) (v : value) (es : list value) : list value :=
  if decide (n < length es)%nat then <[n := v]> es
  else es ++ replicate (n - length es) VUndef ++ [v].

Definition cell_get (c : cell) (k : key) : value :=
  match c with
  | Arr es named =>
      match array_slot k with
      | SIdx n => default VUndef (es !! n)
      | SLength => VNum (Z.of_nat (length es))
      | SNamed s => default VUndef (own_lookup s named)
      end
  | Obj _ ps => default VUndef (own_lookup (key_name k) ps)
  end.

(** The exceptions of the host that the code can meet, and [Unmodelled]:
    the host would go on with a step that is outside the fragment, so the
    model says nothing about the outcome. *)
Inductive error : Type :=
| TypeError
| RangeError
| StackOverflow
| Unmodelled.

(** What [arr.length = v] asks for: the host converts [v] to a number and
    accepts the integers from [0] to [2^32 - 1], and refuses every other
    number with a RangeError.  [undefined] and [NaN] convert to [NaN],
    [null] to [0] and a boolean to [0] or [1]; a symbol does not convert.
    A string converts to the number it is the canonical decimal form of,
    and to [NaN] when it has a letter that occurs in no numeric literal;
    the conversion of other text is outside the fragment.  The conversion
    of an object is left to [object_refuses] below, which sees the cell. *)
Inductive length_request : Type :=
| NewLength (n : nat)
| Refused (e : error).

Definition valid_length (n : Z) : bool :=
  ((0 <=? n) && (4294967295 >=? n))%Z.

(** The letters that occur in no numeric literal: those outside the
    hexadecimal digits, the marks [x], [o], [b] and [e] and the word
    [Infinity]. *)
Definition not_numeric (c : ascii) : bool :=
  existsb (Ascii.eqb c)
    (list_ascii_of_string "ghjklmpqrsuvwzGHJKLMNPQRSTUVWYZ").

Definition string_to_length (s : string) : length_request :=
  match name_index s with
  | Some n =>
      if valid_length (Z.of_nat n) then NewLength n else Refused RangeError
  | None =>
      if existsb not_numeric (list_ascii_of_string s) then Refused RangeError
      else Refused Unmodelled
  end.

Definition to_length (v : value) : length_request :=
  match v with
  | VNum n =>
      if valid_length n then NewLength (Z.to_nat n) else Refused RangeError
  | VNull => NewLength 0
  | VBool b => NewLength (if b then 1 else 0)
  | VUndef | VNaN => Refused RangeError
  | VSym _ => Refused TypeError
  | VStr s => string_to_length s
  | VRef _ => Refused Unmodelled
  end.

(** [arr.length = n]: the elements from [n] on are dropped, or the array
    is extended with holes. *)
Definition resize (n : nat) (es : list value) : list value :=
  take n es ++ replicate (n - length es) VUndef.

(** The cell after [c[k] = v], when the assignment is accepted. *)
Definition cell_set (c : cell) (k : key) (v : value) : cell :=
  match c with
  | Arr es named =>
      match array_slot k with
      | SIdx n => Arr (elems_set n v es) named
      | SLength =>
          match to_length v with
          | NewLength n => Arr (resize n es) named
          | Refused _ => Arr es named
          end
      | SNamed s => Arr es (own_insert s v named)
      end
  | Obj sh ps => Obj sh (own_insert (key_name k) v ps)
  end.

(** The error of [arr.length = object]: a plain object without a
    [valueOf] and a [toString] of its own converts to the text
    [[object Object]], which is no number.  The conversion of another
    object runs code or depends on its content, which is outside the
    fragment. *)
Definition object_refuses (c : option cell) : error :=
  match c with
  | Some (Obj Plain ps) =>
      match own_lookup "valueOf" ps, own_lookup "toString" ps with
      | None, None => RangeError
      | _, _ => Unmodelled
      end
  | _ => Unmodelled
  end.

(** The error of [c[k] = v], if the host refuses the assignment: only the
    [length] of an array can refuse.  [target] is the cell of [v] when [v]
    is a reference. *)
Definition cell_refuses (target : option cell) (c : cell) (k : key) (v : value)
  : option error :=
  match c with
  | Arr _ _ =>
      match array_slot k with
      | SLength =>
          match v with
          | VRef _ => Some (object_refuses target)
          | _ =>
              match to_length v with
              | NewLength _ => None
              | Refused e => Some e
              end
          end
      | _ => None
      end
  | Obj _ _ => None
  end.

(** The cell a value refers to. *)
Definition cell_of (h : heap) (v : value) : option cell :=
  match v with
  | VRef a => h !! a
  | _ => None
  end.

(** The character of a string at an index, as a string of length one. *)
Definition string_char (s : string) (n : nat) : value :=
  match String.get n s with
  | Some c => VStr (String c EmptyString)
  | None => VUndef
  end.

Definition string_get (s : string) (k : key) : value :=
  match array_slot k with
  | SIdx n => string_char s n
  | SLength => VNum (Z.of_nat (String.length s))
  | SNamed _ => VUndef
  end.

(** [object[key]] as a read.  [None] is the TypeError of reading a property
    of [undefined] or [null]. *)
Definition get_prop (h : heap) (object : value) (k : key) : option value :=
  match object with
  | VUndef | VNull => None
  | VStr s => Some (string_get s k)
  | VRef a =>
      match h !! a with
      | Some c => Some (cell_get c k)
      | None => Some VUndef
      end
  | _ => Some VUndef
  end.

(** Truthiness ([!!v]). *)
Definition truthy (v : value) : bool :=
  match v with
  | VUndef | VNull | VNaN => false
  | VBool b => b
  | VNum n => negb (Z.eqb n 0)
  | VStr s => negb (String.eqb s "")
  | VSym _ | VRef _ => true
  end.

(** Strict equality ([===]): [NaN] differs from itself. *)
Definition strict_eq (v w : value) : bool :=
  match v, w with
  | VNaN, _ | _, VNaN => false
  | _, _ => bool_decide (v = w)
  end.

(* ===================================================================== *)
(** * Computations: a heap threaded through, and exceptions *)
(* ===================================================================== *)

Inductive result (A : Type) : Type :=
| Ret (a : A) (h : heap)
| Throw (e : error).
Arguments Ret {A} a h.
Arguments Throw {A} e.

Definition M (A : Type) : Type := heap -> result A.

Definition ret {A} (a : A) : M A := fun h => Ret a h.
Definition throw {A} (e : error) : M A := fun _ => Throw e.
Definition bind {A B} (m : M A) (f : A -> M B) : M B :=
  fun h => match m h with
           | Ret a h' => f a h'
           | Throw e => Throw e
           end.

Declare Scope js_scope.
Delimit Scope js_scope with js.
Notation "x <- m ;; k" := (bind m (fun x => k))
  (at level 100, m at next level, right associativity) : js_scope.
Notation "m ;;; k" := (bind m (fun _ => k))
  (at level 100, right associativity) : js_scope.
Local Open Scope js_scope.

(** A new cell; its reference is the next free address. *)
Definition alloc (c : cell) : M value :=
  fun h => Ret (VRef (length h)) (h ++ [c]).

(** [object[key]] in the monad. *)
Definition read (object : value) (k : key) : M value :=
  fun h => match get_prop h object k with
           | Some v => Ret v h
           | None => Throw TypeError
           end.

(** [object[key] = v].  Only a cell can be written, and the cell can
    refuse the assignment. *)
Definition write (object : value) (k : key) (v : value) : M unit :=
  fun h => match object with
           | VRef a =>
               match h !! a with
               | Some c =>
                   match cell_refuses (cell_of h v) c k v with
                   | Some e => Throw e
                   | None => Ret tt (<[a := cell_set c k v]> h)
                   end
               | None => Throw TypeError
               end
           | _ => Throw TypeError
           end.

(** A pure look at the heap. *)
Definition inspect {A} (f : heap -> A) : M A := fun h => Ret (f h) h.

(** A look at the heap that may fail with a TypeError. *)
Definition inspect_opt {A} (f : heap -> option A) : M A :=
  fun h => match f h with
           | Some a => Ret a h
           | None => Throw TypeError
           end.

(** [list.reduce(step, init)] and [list.map(f)] with effects, left to
    right. *)
Fixpoint reduce {A B} (step : A -> B -> M A) (l : list B) (init : A) : M A :=
  match l with
  | [] => ret init
  | b :: l' => a <- step init b ;; reduce step l' a
  end.

Fixpoint map_m {A B} (f : A -> M B) (l : list A) : M (list B) :=
  match l with
  | [] => ret []
  | a :: l' => b <- f a ;; bs <- map_m f l' ;; ret (b :: bs)
  end.

(* ===================================================================== *)
(** * What the host tells about a value *)
(* ===================================================================== *)

(** [Array.isArray]. *)
Definition isArray (h : heap) (v : value) : bool :=
  match v with
  | VRef a => match h !! a with Some (Arr _ _) => true | _ => false end
  | _ => false
  end.

(** [typeof v === 'object']: [null], and a reference to a cell that exists
    and is not a function. *)
Definition typeof_object (h : heap) (v : value) : bool :=
  match v with
  | VNull => true
  | VRef a =>
      match h !! a with
      | Some (Obj FunctionObj _) => false
      | Some _ => true
      | None => false
      end
  | _ => false
  end.

Definition shape_of (h : heap) (v : value) : option shape :=
  match v with
  | VRef a => match h !! a with Some (Obj sh _) => Some sh | _ => None end
  | _ => None
  end.

(** [v instanceof Date] and [v instanceof RegExp]. *)
Definition instanceof_Date (h : heap) (v : value) : bool :=
  bool_decide (shape_of h v = Some DateObj).
Definition instanceof_RegExp (h : heap) (v : value) : bool :=
  bool_decide (shape_of h v = Some RegExpObj).

(** The elements of an array, as the spread [...v] yields them. *)
Definition elements (h : heap) (v : value) : list value :=
  match v with
  | VRef a => match h !! a with Some (Arr es _) => es | _ => [] end
  | _ => []
  end.

(** The own enumerable properties of an object. *)
Definition own_props (h : heap) (v : value) : list (string * value) :=
  match v with
  | VRef a => match h !! a with Some (Obj _ ps) => ps | _ => [] end
  | _ => []
  end.

(** [Object.keys(v)]; [None] is the TypeError for [undefined] and [null]. *)
Definition object_keys (h : heap) (v : value) : option (list string) :=
  match v with
  | VUndef | VNull => None
  | VStr s => Some (map string_of_index (seq 0 (String.length s)))
  | VRef a =>
      match h !! a with
      | Some (Arr es named) =>
          Some (map string_of_index (seq 0 (length es)) ++ map fst named)
      | Some (Obj _ ps) => Some (map fst ps)
      | None => Some []
      end
  | _ => Some []
  end.

(** What [v.constructor] is, as far as [getShallowClone] asks: [Object]
    itself, a function of native code, or a function written by the user
    (or nothing at all).  [None] is the TypeError for [undefined] and
    [null]. *)
Inductive constructor : Type :=
| CObject
| CNative
| CUser (proto : nat).

Definition constructor_of (h : heap) (v : value) : option constructor :=
  match v with
  | VUndef | VNull => None
  | VRef a =>
      match h !! a with
      | Some (Obj Plain _) => Some CObject
      | Some (Obj (Custom p) _) => Some (CUser p)
      | _ => Some CNative
      end
  | _ => Some CNative
  end.

(* ===================================================================== *)
(** * src/utils.js *)
(* ===================================================================== *)

(** [REACT_ELEMENT_TYPE = Symbol.for('react.element')]. *)
Definition REACT_ELEMENT_TYPE : value := VSym "react.element".

(** [isCloneable(object)] *)
Definition isCloneable (h : heap) (object : value) : bool :=
  truthy object
  && typeof_object h object
  && negb (instanceof_Date h object || instanceof_RegExp h object)
  && match get_prop h object (Name "$$typeof") with
     | Some t => negb (strict_eq t REACT_ELEMENT_TYPE)
     | None => false
     end.

(** The reducer of [getShallowClone]: [clone[key] = object[key]]. *)
Definition copy_key (object : value) (clone : value) (key : string)
  : M value :=
  v <- read object (Name key) ;;
  write clone (Name key) v ;;;
  ret clone.

(** [getShallowClone(object)] *)
Definition getShallowClone (object : value) : M value :=
  isArr <- inspect (fun h => isArray h object) ;;
  if isArr : bool then
    es <- inspect (fun h => elements h object) ;;
    alloc (Arr es [])
  else
    c <- inspect_opt (fun h => constructor_of h object) ;;
    match c with
    | CObject =>
        ps <- inspect (fun h => own_props h object) ;;
        alloc (Obj Plain ps)
    | CNative => alloc (Obj Plain [])
    | CUser p =>
        keys <- inspect_opt (fun h => object_keys h object) ;;
        fresh <- alloc (Obj (Custom p) []) ;;
        reduce (copy_key object) keys fresh
    end.

(** [typeof key === 'number'] *)
Definition typeof_number (k : key) : bool :=
  match k with
  | Index _ => true
  | Name _ => false
  end.

(** The cell of [[]] or [{}] that [getNewEmptyChild] creates. *)
Definition empty_child (k : key) : cell :=
  if typeof_number k then Arr [] [] else Obj Plain [].

(** [getNewEmptyChild(key)] *)
Definition getNewEmptyChild (k : key) : M value :=
  alloc (empty_child k).

(** [getNewEmptyObject(object)] *)
Definition getNewEmptyObject (object : value) : M value :=
  isArr <- inspect (fun h => isArray h object) ;;
  if isArr : bool then alloc (Arr [] []) else alloc (Obj Plain []).

(** [cloneIfPossible(object)] *)
Definition cloneIfPossible (object : value) : M value :=
  c <- inspect (fun h => isCloneable h object) ;;
  if c : bool then getShallowClone object else ret object.

(** [getNewChildClone(object, nextKey)] *)
Definition getNewChildClone (object : value) (nextKey : key) : M value :=
  emptyChild <- getNewEmptyChild nextKey ;;
  c <- inspect (fun h => isCloneable h object) ;;
  if negb c then ret emptyChild
  else
    same <- inspect (fun h => Bool.eqb (isArray h object) (isArray h emptyChild)) ;;
    if same : bool then cloneIfPossible object else ret emptyChild.

(** The terminal callback: it receives the container and the last key. *)
Definition callback : Type := value -> key -> M value.

(** [onMatchAtPath(path, object, onMatch, shouldClone, noMatchValue, index)].
    [fuel] bounds the depth of the recursion; running out of it is the
    exhaustion of the call stack. *)
Fixpoint onMatchAtPath (fuel : nat) (path : list key) (object : value)
    (onMatch : callback) (shouldClone : bool) (noMatchValue : value)
    (index : nat) : M value :=
  match fuel with
  | O => throw StackOverflow
  | S fuel' =>
      let key := path_at path index in
      let nextIndex := S index in
      if decide (nextIndex = length path) then
        result <- (if truthy object || shouldClone then onMatch object key
                   else ret noMatchValue) ;;
        ret (if shouldClone then object else result)
      else if shouldClone then
        child <- read object key ;;
        clone <- getNewChildClone child (path_at path nextIndex) ;;
        r <- onMatchAtPath fuel' path clone onMatch shouldClone noMatchValue
               nextIndex ;;
        write object key r ;;;
        ret object
      else if truthy object then
        v <- read object key ;;
        if truthy v then
          onMatchAtPath fuel' path v onMatch shouldClone noMatchValue nextIndex
        else ret noMatchValue
      else ret noMatchValue
  end.

(** The two reducers of [getDeeplyMergedObject]: the one that copies the
    keys of [object1], and the one that merges the keys of [object2], where
    [merge] is the recursive call. *)
Definition clone_key (object1 : value) (clone : value) (key : string)
  : M value :=
  v <- read object1 (Name key) ;;
  c <- cloneIfPossible v ;;
  write clone (Name key) c ;;;
  ret clone.

Definition merge_key (merge : value -> value -> M value)
    (object1 object2 : value) (clone : value) (key : string) : M value :=
  v2 <- read object2 (Name key) ;;
  c <- inspect (fun h => isCloneable h v2) ;;
  r <- (if c : bool then
          v1 <- read object1 (Name key) ;;
          merge v1 v2
        else ret v2) ;;
  write clone (Name key) r ;;;
  ret clone.

(** [getDeeplyMergedObject(object1, object2)] *)
Fixpoint getDeeplyMergedObject (fuel : nat) (object1 object2 : value)
  : M value :=
  match fuel with
  | O => throw StackOverflow
  | S fuel' =>
      isObject1Array <- inspect (fun h => isArray h object1) ;;
      isObject2Array <- inspect (fun h => isArray h object2) ;;
      if negb (Bool.eqb isObject1Array isObject2Array) then
        cloneIfPossible object2
      else if isObject1Array : bool then
        es1 <- inspect (fun h => elements h object1) ;;
        es2 <- inspect (fun h => elements h object2) ;;
        clones <- map_m cloneIfPossible es2 ;;
        alloc (Arr (es1 ++ clones) [])
      else
        keys2 <- inspect_opt (fun h => object_keys h object2) ;;
        keys1 <- inspect_opt (fun h => object_keys h object1) ;;
        empty <- alloc (Obj Plain []) ;;
        base <- reduce (clone_key object1) keys1 empty ;;
        reduce (merge_key (getDeeplyMergedObject fuel') object1 object2)
               keys2 base
  end.

(** [getNestedProperty(path, object)], for a path given as an array. *)
Definition getNestedProperty (fuel : nat) (path : list key) (object : value)
  : M value :=
  if decide (length path = 1%nat) then
    if truthy object then read object (path_at path 0) else ret VUndef
  else
    onMatchAtPath fuel path object (fun ref key => read ref key)
      false VUndef 0.

(** [getDeepClone(path, object, onMatch)], for a path given as an array. *)
Definition getDeepClone (fuel : nat) (path : list key) (object : value)
    (onMatch : callback) : M value :=
  c <- inspect (fun h => isCloneable h object) ;;
  topLevelClone <- (if c : bool then getShallowClone object
                    else getNewEmptyChild (path_at path 0)) ;;
  if decide (length path = 1%nat) then
    onMatch topLevelClone (path_at path 0) ;;;
    ret topLevelClone
  else
    onMatchAtPath fuel path topLevelClone onMatch true VUndef 0.

(** [hasNestedProperty(path, object)], for a path given as an array. *)
Definition hasNestedProperty (fuel : nat) (path : list key) (object : value)
  : M value :=
  if decide (length path = 1%nat) then
    if truthy object then
      v <- read object (path_at path 0) ;;
      ret (VBool (negb (strict_eq v VUndef)))
    else ret (VBool false)
  else
    onMatchAtPath fuel path object
      (fun ref key =>
         if truthy ref then
           v <- read ref key ;;
           ret (VBool (negb (strict_eq v VUndef)))
         else ret (VBool false))
      false (VBool false) 0.

(** [isEmptyKey(object)] *)
Definition isEmptyKey (h : heap) (object : value) : bool :=
  bool_decide (object = VUndef)
  || bool_decide (object = VNull)
  || (isArray h object && bool_decide (elements h object = [])).

(** Modelled from the spec: the terminal callback of [setAtPath], which is
    not in [src/utils.js]; it assigns the value at the final key,
    [(ref, key) => { ref[key] = value; }]. *)
Definition assign (v : value) : callback :=
  fun ref key => write ref key v ;;; ret VUndef.

(** Modelled from the spec: [setAtPath(path, value, root)] is not in
    [src/utils.js]; the spec gives it as [getDeepClone] with a terminal
    callback that assigns [value] at the final key. *)
Definition setAtPath (fuel : nat) (path : list key) (v : value) (root : value)
  : M value :=
  getDeepClone fuel path root (assign v).

(* ===================================================================== *)
(** * Notions the properties are stated with *)
(* ===================================================================== *)

(** The slot of a cell a key addresses: two keys address the same property
    of a cell exactly when their slots are equal. *)
Definition cell_slot (c : cell) (k : key) : slot :=
  match c with
  | Arr _ _ => array_slot k
  | Obj _ _ => SNamed (key_name k)
  end.

(** The properties the field-by-field copy of [getShallowClone] builds. *)
Definition copy_props (ps : list (string * value)) : list (string * value) :=
  fold_left (fun acc key => own_insert key (default VUndef (own_lookup key ps)) acc)
            (map fst ps) [].

(** The cell [getShallowClone] creates for a cell: the elements of an array
    without its named properties, the properties of a plain object or of an
    instance of a user constructor, and nothing of another built-in. *)
Definition clone_cell (c : cell) : cell :=
  match c with
  | Arr es _ => Arr es []
  | Obj Plain ps => Obj Plain ps
  | Obj (Custom p) ps => Obj (Custom p) (copy_props ps)
  | Obj _ _ => Obj Plain []
  end.

(** [root[k1][k2]...[kn]], the chain of plain property reads. *)
Fixpoint access (h : heap) (v : value) (q : list key) : option value :=
  match q with
  | [] => Some v
  | k :: q' =>
      match get_prop h v k with
      | Some v' => access h v' q'
      | None => None
      end
  end.

(** A value that denotes the same thing in every extension of the heap: a
    primitive, or a reference to a cell that exists. *)
Definition in_heap (h : heap) (v : value) : Prop :=
  match v with
  | VRef a => (a < length h)%nat
  | _ => True
  end.



(** The shallow clone of [c] holds under [k] what [c] holds: so it is for
    every key of a plain object and of an instance of a user constructor,
    and for the elements of an array. *)
Definition retains (c : cell) (k : key) : Prop :=
  cell_get (clone_cell c) k = cell_get c k.









(** ** The trees of the examples *)

(** [T = {a: {b: 1}, c: {d: 2}}], with [T] at address 2. *)
Definition heap_T : heap :=
  [ Obj Plain [("b", VNum 1)];
    Obj Plain [("d", VNum 2)];
    Obj Plain [("a", VRef 0); ("c", VRef 1)] ].






(** [{}] at address 0 and [{a: {x: 1}}] at address 2. *)
Definition heap_M : heap :=
  [ Obj Plain [];
    Obj Plain [("x", VNum 1)];
    Obj Plain [("a", VRef 1)] ].

(** [{}] at address 0 and [{a: [1]}] at address 2. *)
Definition heap_N : heap :=
  [ Obj Plain [];
    Arr [VNum 1] [];
    Obj Plain [("a", VRef 1)] ].

(** What [hasNestedProperty] decides: the root and every value on the way
    are truthy, and the last key holds a value other than [undefined]. *)
Fixpoint present_and_defined (h : heap) (v : value) (path : list key) : Prop :=
  match path with
  | [] => False
  | k :: rest =>
      truthy v = true
      /\ exists x, get_prop h v k = Some x
                   /\ match rest with
                      | [] => x <> VUndef
                      | _ :: _ => present_and_defined h x rest
                      end
  end.

(** The words of the spec for [hasNestedProperty]: every intermediate node
    exists, that is every key on the way holds a value other than
    [undefined], and the last key holds a defined value. *)
Fixpoint exists_and_defined (h : heap) (v : value) (path : list key) : Prop :=
  match path with
  | [] => False
  | k :: rest =>
      exists x, get_prop h v k = Some x
                /\ x <> VUndef
                /\ match rest with
                   | [] => True
                   | _ :: _ => exists_and_defined h x rest
                   end
  end.

Definition has_as_stated (fuel : nat) (path : list key) (root : value)
    (h : heap) : Prop :=
  hasNestedProperty fuel path root h = Ret (VBool true) h
  <-> exists_and_defined h root path.

(** [{a: {}}] at address 1. *)
Definition heap_E1 : heap :=
  [ Obj Plain []; Obj Plain [("a", VRef 0)] ].

(** [{a: {b: undefined}}] at address 1. *)
Definition heap_E2 : heap :=
  [ Obj Plain [("b", VUndef)]; Obj Plain [("a", VRef 0)] ].

(** [{a: null}] at address 0. *)
Definition heap_E3 : heap :=
  [ Obj Plain [("a", VNull)] ].

(** [{a: ''}] at address 0. *)
Definition heap_E4 : heap :=
  [ Obj Plain [("a", VStr "")] ].

(** How [cloneIfPossible] treats an element [e] of the heap [h], seen in
    the heap [h'] after the merge: a cloneable element gives a reference to
    a cell that did not exist in [h] and is its shallow clone, another
    element is kept as it is. *)
Definition clone_of (h h' : heap) (e c : value) : Prop :=
  if isCloneable h e then
    exists a ce a',
      e = VRef a /\ h !! a = Some ce
      /\ c = VRef a' /\ h !! a' = None /\ h' !! a' = Some (clone_cell ce)
  else in_heap h e -> c = e.


(** A date, a regular expression, or a value tagged as a react element. *)
Definition atomic (h : heap) (v : value) : Prop :=
  instanceof_Date h v = true
  \/ instanceof_RegExp h v = true
  \/ get_prop h v (Name "$$typeof") = Some REACT_ELEMENT_TYPE.

(** [[1, 2]] at address 0 and [[3, 4]] at address 1. *)
Definition heap_S : heap :=
  [ Arr [VNum 1; VNum 2] [];
    Arr [VNum 3; VNum 4] [] ].


(** A date at address 0, [{d: {x: 1}}] at address 2 and [{d: date}] at
    address 3. *)
Definition heap_D : heap :=
  [ Obj DateObj [];
    Obj Plain [("x", VNum 1)];
    Obj Plain [("d", VRef 1)];
    Obj Plain [("d", VRef 0)] ].

(** A regular expression at address 0 and an object tagged as a react
    element at address 1. *)
Definition heap_R : heap :=
  [ Obj RegExpObj [];
    Obj Plain [("$$typeof", REACT_ELEMENT_TYPE); ("type", VStr "div")] ].


(* ===================================================================== *)
(** * src/utils.js: curry *)
(* ===================================================================== *)

(** What a call of the function that [curry(fn)] returns gives: the result
    of [fn], or a function that waits for more arguments and remembers the
    ones it was given. *)
Inductive curried_result (A B : Type) : Type :=
| Applied (b : B)
| Waiting (args : list A).
Arguments Applied {A B} b.
Arguments Waiting {A B} args.

(** [curried(...args)], for a function [fn] that takes its arguments as a
    list and declares [fn_length] parameters ([fn.length]). *)
Definition curried {A B} (fn_length : nat) (fn : list A -> B) (args : list A)
  : curried_result A B :=
  if decide (fn_length <= length args)%nat then Applied (fn args)
  else Waiting args.

(** A run of calls [curry(fn)(...c1)(...c2)...], started from the arguments
    remembered so far: a call of a waiting function with [remainingArgs] is
    [curried(...args, ...remainingArgs)].  [None]: a further call was made
    on the result of [fn], which is no longer a call of the curried
    function. *)
Fixpoint curry_calls {A B} (fn_length : nat) (fn : list A -> B)
    (args : list A) (calls : list (list A)) : option (curried_result A B) :=
  match calls with
  | [] => Some (Waiting args)
  | remainingArgs :: rest =>
      match curried fn_length fn (args ++ remainingArgs) with
      | Applied b =>
          match rest with
          | [] => Some (Applied b)
          | _ :: _ => None
          end
      | Waiting args' => curry_calls fn_length fn args' rest
      end
  end.

(* ===================================================================== *)
(** * Further notions the properties are stated with *)
(* ===================================================================== *)




(** The value owns no property named [__proto__]. *)
Definition data_names (h : heap) (object : value) : Prop :=
  forall keys, object_keys h object = Some keys -> "__proto__" ∉ keys.

(** The container that holds the last key of the path, when the root and
    every value on the way to it are truthy. *)
Fixpoint parent_at (h : heap) (v : value) (path : list key) : option value :=
  match path with
  | [] => None
  | k :: rest =>
      if truthy v then
        match rest with
        | [] => Some v
        | _ :: _ =>
            match get_prop h v k with
            | Some x => parent_at h x rest
            | None => None
            end
        end
      else None
  end.


(** The last key of a path. *)
Definition last_key (path : list key) : key :=
  path_at path (length path - 1).

(** What the last key holds in that container, and [undefined] when the
    way to the container is not truthy throughout. *)
Definition guarded_get (h : heap) (root : value) (path : list key) : value :=
  match parent_at h root path with
  | Some p => default VUndef (get_prop h p (last_key path))
  | None => VUndef
  end.


(** [[1, 2]] with the named property [tag] at address 0. *)
Definition heap_A : heap :=
  [ Arr [VNum 1; VNum 2] [("tag", VStr "t")] ].

(** An instance of a user constructor with the fields [p] and [q] at
    address 0. *)
Definition heap_U : heap :=
  [ Obj (Custom 7) [("p", VNum 1); ("q", VNum 2)] ].

(** [{x: 1}] at address 0, the base [{a: 1, b: {x: 1}, k: true}] at
    address 1 and the override [{a: 2, c: 'z'}] at address 2. *)
Definition heap_F : heap :=
  [ Obj Plain [("x", VNum 1)];
    Obj Plain [("a", VNum 1); ("b", VRef 0); ("k", VBool true)];
    Obj Plain [("a", VNum 2); ("c", VStr "z")] ].

(** The heap after the merge of that base with that override: the result
    [{a: 2, b: {x: 1}, k: true, c: 'z'}] at address 3 and the clone of
    [{x: 1}] at address 4. *)
Definition heap_F_merged : heap :=
  heap_F ++
  [ Obj Plain [("a", VNum 2); ("b", VRef 4); ("k", VBool true); ("c", VStr "z")];
    Obj Plain [("x", VNum 1)] ].

(* ===================================================================== *)
(** * The monad *)
(* ===================================================================== *)

Lemma bind_Ret {A B} (m : M A) (f : A -> M B) h a h1 :
  m h = Ret a h1 -> bind m f h = f a h1.
Proof. intros Hm. unfold bind. by rewrite Hm. Qed.

Lemma bind_Throw {A B} (m : M A) (f : A -> M B) h e :
  m h = Throw e -> bind m f h = Throw e.
Proof. intros Hm. unfold bind. by rewrite Hm. Qed.

Lemma bind_inv {A B} (m : M A) (f : A -> M B) h b h2 :
  bind m f h = Ret b h2 -> exists a h1, m h = Ret a h1 /\ f a h1 = Ret b h2.
Proof.
  unfold bind. destruct (m h) as [a h1|e] eqn:Hm; [|discriminate].
  intros Hf. by exists a, h1.
Qed.

(** Closes a goal [x ∉ [x1; ...; xn]] on a list of values that all differ
    from [x]. *)
Ltac not_in_list :=
  let Hin := fresh "Hin" in
  intros Hin;
  repeat (apply elem_of_cons in Hin as [?|Hin]; [done|]);
  by apply elem_of_nil in Hin.

(** Splits a hypothesis on a bind that returned: the first computation
    returned [a] in the heap [h1], by [H1], and [H] is about the rest. *)
Tactic Notation "inv_bind" hyp(H) "as" ident(a) ident(h1) ident(H1) :=
  apply bind_inv in H as (a & h1 & H1 & H).

Lemma inspect_Ret {A} (f : heap -> A) h : inspect f h = Ret (f h) h.
Proof. reflexivity. Qed.

Lemma alloc_Ret c h : alloc c h = Ret (VRef (length h)) (h ++ [c]).
Proof. reflexivity. Qed.

Lemma read_ref h a c k :
  h !! a = Some c -> read (VRef a) k h = Ret (cell_get c k) h.
Proof. intros Ha. unfold read. simpl. by rewrite Ha. Qed.

(** Only the [length] of an array refuses an assignment. *)
Lemma cell_refuses_slot target c k v :
  cell_slot c k <> SLength -> cell_refuses target c k v = None.
Proof.
  destruct c as [es named|sh ps]; simpl; [|done].
  by destruct (array_slot k).
Qed.



Lemma write_ref h a c k v :
  h !! a = Some c ->
  cell_slot c k <> SLength ->
  write (VRef a) k v h = Ret tt (<[a := cell_set c k v]> h).
Proof.
  intros Ha Hk. unfold write. by rewrite Ha, cell_refuses_slot.
Qed.

Lemma write_obj h a sh ps k v :
  h !! a = Some (Obj sh ps) ->
  write (VRef a) k v h = Ret tt (<[a := cell_set (Obj sh ps) k v]> h).
Proof. intros Ha. by apply write_ref. Qed.

Lemma write_inv object k v h u h' :
  write object k v h = Ret u h' ->
  exists a c, object = VRef a /\ h !! a = Some c /\ h' = <[a := cell_set c k v]> h.
Proof.
  unfold write. destruct object; try discriminate.
  destruct (h !! a) as [c|] eqn:Ha; [|discriminate].
  destruct (cell_refuses _ c k v); [discriminate|].
  intros [= <- <-]. eauto.
Qed.

Lemma inspect_inv {A} (f : heap -> A) h a h1 :
  inspect f h = Ret a h1 -> a = f h /\ h1 = h.
Proof. by intros [= <- <-]. Qed.

Lemma read_inv object k h v h1 :
  read object k h = Ret v h1 -> get_prop h object k = Some v /\ h1 = h.
Proof.
  unfold read. destruct (get_prop h object k); [|done]. by intros [= <- <-].
Qed.

(* ===================================================================== *)
(** * Reading a property after writing one *)
(* ===================================================================== *)

Lemma own_lookup_insert_eq s v ps : own_lookup s (own_insert s v ps) = Some v.
Proof.
  induction ps as [|[s' v'] ps IH]; simpl.
  - by rewrite decide_True.
  - destruct (decide (s' = s)) as [->|Hne]; simpl.
    + by rewrite decide_True.
    + by rewrite decide_False.
Qed.

Lemma own_lookup_insert_ne s s' v ps :
  s <> s' -> own_lookup s' (own_insert s v ps) = own_lookup s' ps.
Proof.
  intros Hne. induction ps as [|[s0 v0] ps IH]; simpl.
  - by rewrite decide_False.
  - destruct (decide (s0 = s)) as [->|Hs]; simpl.
    + by rewrite !decide_False.
    + destruct (decide (s0 = s')); [done | apply IH].
Qed.






(* ===================================================================== *)
(** * Heaps that grow *)
(* ===================================================================== *)

Lemma lookup_snoc (h : heap) c : (h ++ [c]) !! length h = Some c.
Proof. by rewrite list_lookup_middle. Qed.

Lemma insert_snoc (h : heap) c c' : <[length h := c']> (h ++ [c]) = h ++ [c'].
Proof. rewrite insert_app_r_alt by lia. by rewrite Nat.sub_diag. Qed.

Lemma prefix_lookup (h h' : heap) a c :
  h `prefix_of` h' -> h !! a = Some c -> h' !! a = Some c.
Proof. intros [ext ->] Ha. by apply lookup_app_l_Some. Qed.

Lemma prefix_snoc (h : heap) c : h `prefix_of` h ++ [c].
Proof. by apply prefix_app_r. Qed.

Lemma prefix_insert_fresh (h0 h : heap) a c :
  h0 `prefix_of` h -> (length h0 <= a)%nat -> h0 `prefix_of` <[a := c]> h.
Proof.
  intros [ext ->] Ha. rewrite insert_app_r_alt by done. by apply prefix_app_r.
Qed.


(* ===================================================================== *)
(** * The classifier and the container factory *)
(* ===================================================================== *)

Lemma isCloneable_ref h v :
  isCloneable h v = true -> exists a c, v = VRef a /\ h !! a = Some c.
Proof.
  intros Hc. destruct v as [| |b|n| |s|s|a];
    try (unfold isCloneable in Hc; cbn in Hc;
         rewrite ?andb_false_r in Hc; cbn in Hc; discriminate).
  destruct (h !! a) as [c|] eqn:Ha; [eauto|].
  unfold isCloneable in Hc. cbn in Hc. rewrite Ha in Hc. discriminate.
Qed.

Lemma isCloneable_cell h h' a :
  h !! a = h' !! a -> isCloneable h (VRef a) = isCloneable h' (VRef a).
Proof.
  intros Ha. unfold isCloneable, instanceof_Date, instanceof_RegExp, shape_of,
    typeof_object, get_prop. by rewrite Ha.
Qed.


Lemma isCloneable_prefix h h' v :
  h `prefix_of` h' -> in_heap h v -> isCloneable h' v = isCloneable h v.
Proof.
  intros Hp Hv. destruct v as [| |b|n| |s|s|a]; try done.
  simpl in Hv. apply lookup_lt_is_Some_2 in Hv as [c Hc].
  apply isCloneable_cell. rewrite Hc. by apply (prefix_lookup h).
Qed.


Lemma get_prop_prefix h h' v k :
  h `prefix_of` h' -> in_heap h v -> get_prop h' v k = get_prop h v k.
Proof.
  intros Hp Hv. destruct v as [| |b|n| |s|s|a]; try done.
  simpl in Hv. apply lookup_lt_is_Some_2 in Hv as [c Hc].
  simpl. by rewrite Hc, (prefix_lookup h h' a c).
Qed.

(** The field-by-field copy, run in the heap, builds [copy_props]. *)
Lemma reduce_copy_key h a sh ps p keys acc :
  h !! a = Some (Obj sh ps) ->
  reduce (copy_key (VRef a)) keys (VRef (length h)) (h ++ [Obj (Custom p) acc])
  = Ret (VRef (length h))
        (h ++ [Obj (Custom p)
                 (fold_left (fun acc key =>
                               own_insert key (default VUndef (own_lookup key ps)) acc)
                            keys acc)]).
Proof.
  intros Ha. revert acc. induction keys as [|key keys IH]; intros acc; [done|].
  simpl. unfold copy_key at 1.
  erewrite bind_Ret; cycle 1.
  { erewrite bind_Ret; cycle 1.
    { apply read_ref. by apply lookup_app_l_Some. }
    erewrite bind_Ret; cycle 1.
    { apply write_obj. apply lookup_snoc. }
    reflexivity. }
  rewrite insert_snoc. simpl. apply IH.
Qed.

(** [getShallowClone] of a cell that exists: one new cell, the clone. *)
Lemma getShallowClone_ref h a c :
  h !! a = Some c ->
  getShallowClone (VRef a) h = Ret (VRef (length h)) (h ++ [clone_cell c]).
Proof.
  intros Ha. unfold getShallowClone, bind, inspect, inspect_opt, isArray,
    elements, constructor_of, own_props, object_keys.
  destruct c as [es named|[| | | | |p] ps]; rewrite ?Ha; try done.
  rewrite alloc_Ret.
  by rewrite (reduce_copy_key h a (Custom p) ps).
Qed.

Lemma cloneIfPossible_atom h v :
  isCloneable h v = false -> cloneIfPossible v h = Ret v h.
Proof. intros Hc. unfold cloneIfPossible, bind, inspect. by rewrite Hc. Qed.

Lemma cloneIfPossible_clone h a c :
  isCloneable h (VRef a) = true -> h !! a = Some c ->
  cloneIfPossible (VRef a) h = Ret (VRef (length h)) (h ++ [clone_cell c]).
Proof.
  intros Hc Ha. unfold cloneIfPossible, bind, inspect. rewrite Hc.
  by apply getShallowClone_ref.
Qed.



(** Whatever the child is, [getNewChildClone] returns a cell that did not
    exist before and leaves the cells that did as they are. *)
Lemma getNewChildClone_fresh h child nextKey :
  exists r h1 c1,
    getNewChildClone child nextKey h = Ret (VRef r) h1
    /\ (length h <= r)%nat /\ h `prefix_of` h1 /\ h1 !! r = Some c1.
Proof.
  unfold getNewChildClone, getNewEmptyChild.
  rewrite (bind_Ret _ _ _ _ _ (alloc_Ret _ _)).
  unfold bind at 1. rewrite inspect_Ret.
  set (h1 := h ++ [empty_child nextKey]).
  assert (Hempty : exists c1, Ret (A:=value) (VRef (length h)) h1 = Ret (VRef (length h)) h1
            /\ (length h <= length h)%nat /\ h `prefix_of` h1
            /\ h1 !! length h = Some c1).
  { exists (empty_child nextKey). split_and!; try done.
    - apply prefix_snoc.
    - apply lookup_snoc. }
  destruct (isCloneable h1 child) eqn:Hc; simpl.
  2:{ destruct Hempty as (c1 & ?). by exists (length h), h1, c1. }
  unfold bind at 1. rewrite inspect_Ret.
  destruct (Bool.eqb _ _).
  2:{ destruct Hempty as (c1 & ?). by exists (length h), h1, c1. }
  destruct (isCloneable_ref _ _ Hc) as (a & c & -> & Ha).
  rewrite (cloneIfPossible_clone _ a c Hc Ha).
  exists (length h1), (h1 ++ [clone_cell c]), (clone_cell c). split_and!.
  - done.
  - unfold h1. rewrite length_app. lia.
  - unfold h1. rewrite <- app_assoc. by apply prefix_app_r.
  - apply lookup_snoc.
Qed.








(* ===================================================================== *)
(** * The path walker in write mode *)
(* ===================================================================== *)












(* ===================================================================== *)
(** * Writes: immutability and round trip *)
(* ===================================================================== *)







(* ===================================================================== *)
(** * Writes: what is shared *)
(* ===================================================================== *)


Lemma retains_element es named n :
  array_index n = true -> retains (Arr es named) (Index n).
Proof. intros Hn. unfold retains. simpl. by rewrite Hn. Qed.









(* ===================================================================== *)
(** * Writes: a child of the wrong kind *)
(* ===================================================================== *)



(* ===================================================================== *)
(** * Merge: kinds that disagree *)
(* ===================================================================== *)



(* ===================================================================== *)
(** * Merge: a key the base lacks *)
(* ===================================================================== *)

(** C5 (merge into an absent base value): what the code does.  The merge
    of two objects recurses at every key whose override value is cloneable
    with [object1[key]] as the base.  When the base lacks the key and the
    override value is an array, the kinds disagree and the clone of the
    override value is the result; when the override value is an object,
    the recursive call asks for [Object.keys(undefined)] and throws a
    TypeError.  So [merge({}, {a: [1]})] returns [{a: [1]}] and
    [merge({}, {a: {x: 1}})] throws. *)
Theorem getDeeplyMergedObject_absent_base_throws :
  (forall fuel h object2,
     isArray h object2 = false ->
     getDeeplyMergedObject (S fuel) VUndef object2 h = Throw TypeError)
  /\ (forall fuel,
        getDeeplyMergedObject (S (S fuel)) (VRef 0) (VRef 2) heap_M
        = Throw TypeError)
  /\ (forall fuel,
        getDeeplyMergedObject (S (S fuel)) (VRef 0) (VRef 2) heap_N
        = Ret (VRef 3)
              (heap_N ++ [Obj Plain [("a", VRef 4)]; Arr [VNum 1] []])).
Proof.
  split_and!.
  - intros fuel h object2 Harr. simpl.
    unfold bind, inspect, inspect_opt. cbn beta. rewrite Harr. cbn.
    by destruct (object_keys h object2).
  - intros fuel. by vm_compute.
  - intros fuel. by vm_compute.
Qed.

Lemma getDeeplyMergedObject_absent_base_throws_witness :
  getDeeplyMergedObject 1 VUndef (VRef 1) heap_M = Throw TypeError.
Proof.
  apply (proj1 getDeeplyMergedObject_absent_base_throws 0 heap_M (VRef 1)).
  reflexivity.
Defined.

(* ===================================================================== *)
(** * The path walker in read mode *)
(* ===================================================================== *)

Lemma drop_path_at path index :
  (index < length path)%nat ->
  drop index path = path_at path index :: drop (S index) path.
Proof.
  intros Hlt. apply lookup_lt_is_Some_2 in Hlt as [k Hk].
  unfold path_at. rewrite Hk. simpl. by apply drop_S.
Qed.

Lemma truthy_get_prop h v k :
  truthy v = true -> exists x, get_prop h v k = Some x.
Proof.
  destruct v as [| |b|n| |s|s|a]; simpl; try discriminate; eauto.
  destruct (h !! a); eauto.
Qed.

Lemma strict_eq_undef x : strict_eq x VUndef = true <-> x = VUndef.
Proof.
  destruct x; simpl; try done;
    rewrite ?bool_decide_eq_true; try done.
Qed.

Lemma negb_strict_eq_undef x : negb (strict_eq x VUndef) = true <-> x <> VUndef.
Proof.
  rewrite negb_true_iff, <- not_true_iff_false. by rewrite strict_eq_undef.
Qed.

(** The terminal callback of [hasNestedProperty]. *)
Lemma has_terminal h object k :
  exists b,
    (if truthy object then
       v <- read object k ;; ret (VBool (negb (strict_eq v VUndef)))
     else ret (VBool false)) h = Ret (VBool b) h
    /\ (b = true <-> present_and_defined h object [k]).
Proof.
  simpl. destruct (truthy object) eqn:Ht.
  - destruct (truthy_get_prop h object k Ht) as [x Hx].
    exists (negb (strict_eq x VUndef)). split.
    + unfold bind, read, ret. by rewrite Hx.
    + rewrite negb_strict_eq_undef. split.
      * intros Hne. split; [done|]. by exists x.
      * intros [_ (x' & Hx' & Hne)]. congruence.
  - exists false. split; [done|]. split; [done|]. by intros [? _].
Qed.

(** [hasNestedProperty] below the root: the walk in read mode. *)
Lemma has_walk path fuel :
  forall index object h,
    (index < length path)%nat ->
    (length path - index <= fuel)%nat ->
    exists b,
      onMatchAtPath fuel path object
        (fun ref key =>
           if truthy ref then
             v <- read ref key ;; ret (VBool (negb (strict_eq v VUndef)))
           else ret (VBool false))
        false (VBool false) index h = Ret (VBool b) h
      /\ (b = true <-> present_and_defined h object (drop index path)).
Proof.
  induction fuel as [|fuel IH]; intros index object h Hidx Hfuel; [lia|].
  rewrite (drop_path_at path index Hidx). simpl onMatchAtPath.
  destruct (decide (S index = length path)) as [Hlast|Hmore].
  - rewrite (drop_ge path (S index)) by lia.
    destruct (has_terminal h object (path_at path index)) as (b & Hrun & Hb).
    exists b. split; [|done].
    rewrite orb_false_r. destruct (truthy object); unfold bind, ret in *.
    + destruct (read object (path_at path index) h); [|done].
      by injection Hrun as -> ->.
    + done.
  - assert (Hnext : (S index < length path)%nat) by lia.
    rewrite (drop_path_at path (S index) Hnext).
    destruct (truthy object) eqn:Ht.
    2:{ exists false. split; [done|]. split; [done|]. intros [? _]. congruence. }
    destruct (truthy_get_prop h object (path_at path index) Ht) as [x Hx].
    unfold bind at 1. unfold read at 1. rewrite Hx.
    destruct (truthy x) eqn:Htx.
    + destruct (IH (S index) x h Hnext) as (b & Hrun & Hb); [lia|].
      exists b. split; [done|].
      rewrite (drop_path_at path (S index) Hnext) in Hb. rewrite Hb.
      split.
      * intros Hp. split; [done|]. by exists x.
      * intros [_ (x' & Hx' & Hp)]. congruence.
    + exists false. split; [done|]. split; [done|].
      intros [_ (x' & Hx' & Hp)]. rewrite Hx in Hx'. injection Hx' as <-.
      destruct Hp as [Hp _]. congruence.
Qed.

(** C8 (existence), as amended.  For a non-empty path and enough fuel,
    [hasNestedProperty] returns a boolean and leaves the heap alone; the
    boolean is true exactly when the root and every value on the way are
    truthy and the last key holds a value other than [undefined].  And
    [has(['a','b'], {a: {}})] is false, [has(['a','b'], {a: {b:
    undefined}})] is false and [has(['a'], {a: null})] is true. *)
Theorem hasNestedProperty_present_and_defined :
  (forall fuel path root h,
     path <> [] ->
     (length path <= fuel)%nat ->
     exists b,
       hasNestedProperty fuel path root h = Ret (VBool b) h
       /\ (b = true <-> present_and_defined h root path))
  /\ hasNestedProperty 2 [Name "a"; Name "b"] (VRef 1) heap_E1
     = Ret (VBool false) heap_E1
  /\ hasNestedProperty 2 [Name "a"; Name "b"] (VRef 1) heap_E2
     = Ret (VBool false) heap_E2
  /\ hasNestedProperty 1 [Name "a"] (VRef 0) heap_E3
     = Ret (VBool true) heap_E3.
Proof.
  split_and!; try by vm_compute.
  intros fuel path root h Hne Hfuel. unfold hasNestedProperty.
  destruct (decide (length path = 1%nat)) as [Hone|Hmany].
  - destruct path as [|k [|k2 rest]]; try done.
    apply has_terminal.
  - assert (Hlen : (0 < length path)%nat) by (destruct path; simpl; [done|lia]).
    destruct (has_walk path fuel 0 root h Hlen) as (b & Hrun & Hb); [lia|].
    exists b. split; [done|]. by rewrite drop_0 in Hb.
Qed.

Lemma hasNestedProperty_present_and_defined_witness :
  exists b,
    hasNestedProperty 2 [Name "a"; Name "length"] (VRef 0) heap_E4
    = Ret (VBool b) heap_E4
    /\ (b = true <-> present_and_defined heap_E4 (VRef 0) [Name "a"; Name "length"]).
Proof.
  apply (proj1 hasNestedProperty_present_and_defined 2 [Name "a"; Name "length"]);
    [discriminate | simpl; lia].
Defined.

(** C8, as the spec words it, fails: in [{a: ''}] the intermediate node
    under [a] exists, it is the empty string, and its key [length] holds
    the defined value [0], yet [has(['a','length'], {a: ''})] is false,
    because the empty string is not truthy. *)
Lemma hasNestedProperty_not_as_stated :
  ~ has_as_stated 2 [Name "a"; Name "length"] (VRef 0) heap_E4.
Proof.
  intros [_ Hback].
  assert (Hex : exists_and_defined heap_E4 (VRef 0) [Name "a"; Name "length"]).
  { exists (VStr ""). split_and!; [done..|].
    exists (VNum 0). by split_and!. }
  specialize (Hback Hex). vm_compute in Hback. discriminate.
Qed.

(** The walk in read mode stops at the first value that is not truthy and
    returns [noMatchValue]; the callback is not called. *)
Lemma falsy_walk path (onMatch : callback) noMatchValue h i v fuel :
  truthy v = false ->
  forall index object,
    (index <= i < length path)%nat ->
    (length path - index <= fuel)%nat ->
    access h object (take (i - index) (drop index path)) = Some v ->
    onMatchAtPath fuel path object onMatch false noMatchValue index h
    = Ret noMatchValue h.
Proof.
  intros Hv. induction fuel as [|fuel IH]; intros index object Hidx Hfuel Hacc;
    [lia|].
  simpl. destruct (decide (S index = length path)) as [Hlast|Hmore].
  - replace (i - index)%nat with 0%nat in Hacc by lia.
    simpl in Hacc. injection Hacc as ->. by rewrite Hv.
  - destruct (truthy object) eqn:Ht; [|done].
    destruct (decide (i = index)) as [->|Hne].
    { rewrite Nat.sub_diag in Hacc. simpl in Hacc. congruence. }
    rewrite (drop_path_at path index) in Hacc by lia.
    replace (i - index)%nat with (S (i - S index)) in Hacc by lia.
    simpl in Hacc.
    destruct (get_prop h object (path_at path index)) as [x|] eqn:Hx; [|done].
    unfold bind, read. rewrite Hx.
    destruct (truthy x) eqn:Htx; [|done].
    apply IH; [lia | lia | done].
Qed.

(** C10 (present means truthy).  If the root, or the value that a proper
    prefix of the path reaches, is not truthy, then [getNestedProperty]
    returns [undefined] and [hasNestedProperty] returns [false], for paths
    of one and of several segments, whatever lies below the falsy value;
    the walker returns its [noMatchValue] for every terminal callback, so
    nothing further is inspected.  So [hasNestedProperty(['a','length'],
    {a: ''})] is false although [''.length] is [0]. *)
Theorem falsy_on_the_way_is_absent :
  (forall fuel path root h i v,
     (length path <= fuel)%nat ->
     (i < length path)%nat ->
     access h root (take i path) = Some v ->
     truthy v = false ->
     getNestedProperty fuel path root h = Ret VUndef h
     /\ hasNestedProperty fuel path root h = Ret (VBool false) h
     /\ forall (onMatch : callback) noMatchValue,
          (2 <= length path)%nat ->
          onMatchAtPath fuel path root onMatch false noMatchValue 0 h
          = Ret noMatchValue h)
  /\ hasNestedProperty 2 [Name "a"; Name "length"] (VRef 0) heap_E4
     = Ret (VBool false) heap_E4
  /\ get_prop heap_E4 (VStr "") (Name "length") = Some (VNum 0).
Proof.
  split_and!; try by vm_compute.
  intros fuel path root h i v Hfuel Hi Hacc Hv.
  assert (Hwalk : forall (onMatch : callback) noMatchValue,
            onMatchAtPath fuel path root onMatch false noMatchValue 0 h
            = Ret noMatchValue h).
  { intros onMatch noMatchValue.
    apply (falsy_walk path onMatch noMatchValue h i v fuel Hv 0 root);
      [lia | lia |]. by rewrite Nat.sub_0_r, drop_0. }
  unfold getNestedProperty, hasNestedProperty.
  destruct (decide (length path = 1%nat)) as [Hone|Hmany].
  - assert (i = 0%nat) as -> by lia. simpl in Hacc. injection Hacc as ->.
    rewrite Hv. split_and!; [done..|]. intros; lia.
  - split_and!; [apply Hwalk..|]. intros. apply Hwalk.
Qed.

Lemma falsy_on_the_way_is_absent_witness :
  getNestedProperty 2 [Name "a"; Name "length"] (VRef 0) heap_E4
  = Ret VUndef heap_E4
  /\ hasNestedProperty 2 [Name "a"; Name "length"] (VRef 0) heap_E4
     = Ret (VBool false) heap_E4
  /\ forall (onMatch : callback) noMatchValue,
       (2 <= length [Name "a"; Name "length"])%nat ->
       onMatchAtPath 2 [Name "a"; Name "length"] (VRef 0) onMatch false
         noMatchValue 0 heap_E4
       = Ret noMatchValue heap_E4.
Proof.
  apply (proj1 falsy_on_the_way_is_absent 2 [Name "a"; Name "length"] (VRef 0)
           heap_E4 1 (VStr "")).
  - simpl. lia.
  - simpl. lia.
  - reflexivity.
  - reflexivity.
Defined.

(* ===================================================================== *)
(** * Merge: arrays *)
(* ===================================================================== *)

Lemma cloneIfPossible_prefix e h c h1 :
  cloneIfPossible e h = Ret c h1 -> h `prefix_of` h1.
Proof.
  destruct (isCloneable h e) eqn:Hcl.
  - destruct (isCloneable_ref _ _ Hcl) as (a & ce & -> & Ha).
    rewrite (cloneIfPossible_clone h a ce Hcl Ha). intros [= <- <-].
    apply prefix_snoc.
  - rewrite (cloneIfPossible_atom h e Hcl). by intros [= <- <-].
Qed.

(** [override.map(cloneIfPossible)] returns, and treats every element as
    [clone_of] says. *)
Lemma map_m_cloneIfPossible h0 es :
  forall h,
    h0 `prefix_of` h ->
    exists clones h',
      map_m cloneIfPossible es h = Ret clones h'
      /\ h `prefix_of` h'
      /\ forall h'', h' `prefix_of` h'' -> Forall2 (clone_of h0 h'') es clones.
Proof.
  induction es as [|e es IH]; intros h Hp.
  - exists [], h. split_and!; [done..|]. intros h'' _. constructor.
  - simpl. destruct (isCloneable h e) eqn:Hcl.
    + destruct (isCloneable_ref _ _ Hcl) as (a & ce & -> & Ha).
      rewrite (bind_Ret _ _ _ _ _ (cloneIfPossible_clone h a ce Hcl Ha)).
      destruct (IH (h ++ [clone_cell ce])) as (clones & h' & Hrun & Hp' & Hall).
      { etrans; [exact Hp | apply prefix_snoc]. }
      rewrite (bind_Ret _ _ _ _ _ Hrun).
      exists (VRef (length h) :: clones), h'. split_and!; [done| |].
      * etrans; [apply prefix_snoc | exact Hp'].
      * intros h'' Hp''. constructor; [|by apply Hall].
        unfold clone_of. destruct (isCloneable h0 (VRef a)) eqn:Hcl0.
        -- destruct (isCloneable_ref _ _ Hcl0) as (a0 & ce0 & [= <-] & Ha0).
           exists a, ce0, (length h). split_and!; try done.
           ++ apply lookup_ge_None_2. by apply prefix_length.
           ++ rewrite (prefix_lookup h0 h a ce0 Hp Ha0) in Ha.
              injection Ha as <-.
              apply (prefix_lookup (h ++ [clone_cell ce0])); [by etrans|].
              apply lookup_snoc.
        -- intros Hin. rewrite (isCloneable_prefix h0) in Hcl by done.
           congruence.
    + rewrite (bind_Ret _ _ _ _ _ (cloneIfPossible_atom h e Hcl)).
      destruct (IH h Hp) as (clones & h' & Hrun & Hp' & Hall).
      rewrite (bind_Ret _ _ _ _ _ Hrun).
      exists (e :: clones), h'. split_and!; [done..|].
      intros h'' Hp''. constructor; [|by apply Hall].
      unfold clone_of. destruct (isCloneable h0 e) eqn:Hcl0; [|done].
      destruct (isCloneable_ref _ _ Hcl0) as (a0 & ce0 & -> & Ha0).
      rewrite (isCloneable_prefix h0) in Hcl;
        [congruence | done | simpl; by apply lookup_lt_Some in Ha0].
Qed.




(* ===================================================================== *)
(** * Merge: objects *)
(* ===================================================================== *)

Lemma atomic_ref h v : atomic h v -> exists a c, v = VRef a /\ h !! a = Some c.
Proof.
  intros [Hd|[Hr|Ht]].
  - apply bool_decide_eq_true in Hd. destruct v as [| |b|n| |s|s|a]; try done.
    simpl in Hd. destruct (h !! a) as [c|] eqn:Ha; [by exists a, c | done].
  - apply bool_decide_eq_true in Hr. destruct v as [| |b|n| |s|s|a]; try done.
    simpl in Hr. destruct (h !! a) as [c|] eqn:Ha; [by exists a, c | done].
  - destruct v as [| |b|n| |s|s|a]; try done.
    simpl in Ht. destruct (h !! a) as [c|] eqn:Ha; [by exists a, c | done].
Qed.

Lemma atomic_not_cloneable h v : atomic h v -> isCloneable h v = false.
Proof.
  unfold isCloneable. intros [Hd|[Hr|Ht]].
  - rewrite Hd. simpl. by rewrite andb_false_r.
  - rewrite Hr, orb_true_r. simpl. by rewrite andb_false_r.
  - rewrite Ht. simpl. by rewrite andb_false_r.
Qed.

Lemma get_prop_ref_in_heap h o k a :
  get_prop h o k = Some (VRef a) -> in_heap h o.
Proof.
  destruct o as [| |b|n| |s|s|a0]; simpl; try done.
  destruct (h !! a0) as [c|] eqn:Ha0; [|done].
  intros _. by apply lookup_lt_Some in Ha0.
Qed.

(** The first reducer: the keys of [object1] are copied into the new
    object, which stays an object at its address, and nothing that existed
    before the merge changes. *)
Lemma reduce_clone_key_spec h0 object1 e keys :
  forall h sh ps r h',
    h0 `prefix_of` h ->
    (length h0 <= e)%nat ->
    h !! e = Some (Obj sh ps) ->
    reduce (clone_key object1) keys (VRef e) h = Ret r h' ->
    r = VRef e /\ h0 `prefix_of` h' /\ exists ps', h' !! e = Some (Obj sh ps').
Proof.
  induction keys as [|key keys IH]; intros h sh ps r h' Hp He Hcell Hrun.
  - injection Hrun as <- <-. eauto.
  - simpl in Hrun. inv_bind Hrun as clone h4 Hstep. unfold clone_key in Hstep.
    inv_bind Hstep as v h1 Hread. apply read_inv in Hread as [_ ->].
    inv_bind Hstep as c h2 Hclone. apply cloneIfPossible_prefix in Hclone as Hp1.
    inv_bind Hstep as u h3 Hwrite. injection Hstep as <- <-.
    apply write_inv in Hwrite as (e' & c' & [= <-] & Hc' & ->).
    rewrite (prefix_lookup h h2 e _ Hp1 Hcell) in Hc'. injection Hc' as <-.
    apply lookup_lt_Some in Hcell as Hlt. apply prefix_length in Hp1 as Hlen.
    eapply IH; [| done | | exact Hrun].
    + apply prefix_insert_fresh; [by etrans | done].
    + simpl. apply list_lookup_insert_eq. lia.
Qed.

(** The second reducer, for any recursive call that leaves the cells that
    exist as they are: the new object stays an object at its address,
    nothing that existed before the merge changes, and a key of the
    override that holds an atomic value ends with that very value. *)
Lemma reduce_merge_key_spec (merge : value -> value -> M value)
    h0 object1 object2 e keys :
  (forall x y h r h', merge x y h = Ret r h' -> h `prefix_of` h') ->
  forall h sh ps r h',
    h0 `prefix_of` h ->
    (length h0 <= e)%nat ->
    h !! e = Some (Obj sh ps) ->
    reduce (merge_key merge object1 object2) keys (VRef e) h = Ret r h' ->
    r = VRef e /\ h0 `prefix_of` h'
    /\ exists ps', h' !! e = Some (Obj sh ps')
       /\ forall key v,
            get_prop h0 object2 (Name key) = Some v ->
            atomic h0 v ->
            key ∈ keys \/ own_lookup key ps = Some v ->
            own_lookup key ps' = Some v.
Proof.
  intros Hframe.
  induction keys as [|k keys IH]; intros h sh ps r h' Hp He Hcell Hrun.
  - injection Hrun as <- <-. split_and!; [done..|].
    exists ps. split; [done|]. intros key v _ _ [Hin|Hps]; [|done].
    by apply elem_of_nil in Hin.
  - simpl in Hrun. inv_bind Hrun as clone h5 Hstep. unfold merge_key in Hstep.
    inv_bind Hstep as v2 h1 Hread. apply read_inv in Hread as [Hv2 ->].
    inv_bind Hstep as c h2 Hinsp. apply inspect_inv in Hinsp as [-> ->].
    inv_bind Hstep as x h3 Hval.
    inv_bind Hstep as u h4 Hwrite. injection Hstep as <- <-.
    assert (Hp1 : h `prefix_of` h3).
    { destruct (isCloneable h v2).
      - inv_bind Hval as v1 h6 Hread1. apply read_inv in Hread1 as [_ ->].
        by eapply Hframe.
      - by injection Hval as <- <-. }
    apply write_inv in Hwrite as (e' & c' & [= <-] & Hc' & ->).
    rewrite (prefix_lookup h h3 e _ Hp1 Hcell) in Hc'. injection Hc' as <-.
    apply lookup_lt_Some in Hcell as Hlt. apply prefix_length in Hp1 as Hlen.
    destruct (IH (<[e := cell_set (Obj sh ps) (Name k) x]> h3) sh
                (own_insert k x ps) r h') as (-> & Hp' & ps' & Hps' & Hat);
      [ apply prefix_insert_fresh; [by etrans | done]
      | done
      | simpl; apply list_lookup_insert_eq; lia
      | exact Hrun |].
    split_and!; [done..|]. exists ps'. split; [done|].
    intros key v Hget Hatom Hkey. apply (Hat key v Hget Hatom).
    destruct (decide (k = key)) as [->|Hne].
    + right.
      destruct (atomic_ref _ _ Hatom) as (av & cv & -> & Hav).
      assert (Hin2 : in_heap h0 object2) by (by eapply get_prop_ref_in_heap).
      rewrite (get_prop_prefix h0) in Hv2 by done.
      rewrite Hget in Hv2. injection Hv2 as <-.
      rewrite (isCloneable_prefix h0) in Hval
        by (try done; simpl; by apply lookup_lt_Some in Hav).
      rewrite (atomic_not_cloneable _ _ Hatom) in Hval.
      injection Hval as <- _.
      apply own_lookup_insert_eq.
    + destruct Hkey as [Hin|Hps].
      * left. apply elem_of_cons in Hin as [->|Hin]; [done|done].
      * right. by rewrite own_lookup_insert_ne.
Qed.

(** The merge of two values that are not arrays, for a recursive call that
    leaves the cells that exist as they are. *)
Lemma merge_objects_spec fuel object1 object2 h r h' :
  (forall x y h r h',
     getDeeplyMergedObject fuel x y h = Ret r h' -> h `prefix_of` h') ->
  isArray h object1 = false ->
  isArray h object2 = false ->
  getDeeplyMergedObject (S fuel) object1 object2 h = Ret r h' ->
  exists keys2 ps',
    object_keys h object2 = Some keys2
    /\ r = VRef (length h)
    /\ h `prefix_of` h'
    /\ h' !! length h = Some (Obj Plain ps')
    /\ forall key v,
         get_prop h object2 (Name key) = Some v ->
         atomic h v ->
         key ∈ keys2 ->
         own_lookup key ps' = Some v.
Proof.
  intros Hframe H1 H2 Hrun. simpl in Hrun.
  inv_bind Hrun as b1 h1 Hi1. apply inspect_inv in Hi1 as [-> ->].
  inv_bind Hrun as b2 h2 Hi2. apply inspect_inv in Hi2 as [-> ->].
  rewrite H1, H2 in Hrun. simpl in Hrun.
  inv_bind Hrun as keys2 h3 Hk2. unfold inspect_opt in Hk2.
  destruct (object_keys h object2) as [keys2'|] eqn:Hkeys2; [|done].
  injection Hk2 as <- <-.
  inv_bind Hrun as keys1 h4 Hk1. unfold inspect_opt in Hk1.
  destruct (object_keys h object1) as [keys1'|] eqn:Hkeys1; [|done].
  injection Hk1 as <- <-.
  inv_bind Hrun as empty h5 Hal. injection Hal as <- <-.
  inv_bind Hrun as base h6 Hbase.
  destruct (reduce_clone_key_spec h object1 (length h) keys1' _ Plain [] _ _
              (prefix_snoc h _) (le_n _) (lookup_snoc h _) Hbase)
    as (-> & Hp1 & ps1 & Hps1).
  destruct (reduce_merge_key_spec _ h object1 object2 (length h) keys2' Hframe
              _ Plain ps1 _ _ Hp1 (le_n _) Hps1 Hrun)
    as (-> & Hp' & ps' & Hps' & Hat).
  exists keys2', ps'. split_and!; try done.
  intros key v Hget Hatom Hin. apply (Hat key v Hget Hatom). by left.
Qed.

(** Whatever it merges, [getDeeplyMergedObject] leaves the cells that
    exist as they are. *)
Lemma getDeeplyMergedObject_frame fuel :
  forall object1 object2 h r h',
    getDeeplyMergedObject fuel object1 object2 h = Ret r h' -> h `prefix_of` h'.
Proof.
  induction fuel as [|fuel IH]; intros object1 object2 h r h' Hrun; [done|].
  destruct (isArray h object1) eqn:H1, (isArray h object2) eqn:H2.
  - simpl in Hrun.
    inv_bind Hrun as b1 h1 Hi1. apply inspect_inv in Hi1 as [-> ->].
    inv_bind Hrun as b2 h2 Hi2. apply inspect_inv in Hi2 as [-> ->].
    rewrite H1, H2 in Hrun. simpl in Hrun.
    inv_bind Hrun as es1 h3 Hi3. apply inspect_inv in Hi3 as [-> ->].
    inv_bind Hrun as es2 h4 Hi4. apply inspect_inv in Hi4 as [-> ->].
    inv_bind Hrun as clones h5 Hmap.
    destruct (map_m_cloneIfPossible h (elements h object2) h)
      as (clones' & h1 & Hmap' & Hp & _); [done|].
    rewrite Hmap' in Hmap. injection Hmap as <- <-.
    injection Hrun as <- <-. by apply prefix_app_r.
  - simpl in Hrun.
    inv_bind Hrun as b1 h1 Hi1. apply inspect_inv in Hi1 as [-> ->].
    inv_bind Hrun as b2 h2 Hi2. apply inspect_inv in Hi2 as [-> ->].
    rewrite H1, H2 in Hrun. simpl in Hrun.
    by eapply cloneIfPossible_prefix.
  - simpl in Hrun.
    inv_bind Hrun as b1 h1 Hi1. apply inspect_inv in Hi1 as [-> ->].
    inv_bind Hrun as b2 h2 Hi2. apply inspect_inv in Hi2 as [-> ->].
    rewrite H1, H2 in Hrun. simpl in Hrun.
    by eapply cloneIfPossible_prefix.
  - destruct (merge_objects_spec fuel object1 object2 h r h' IH H1 H2 Hrun)
      as (_ & _ & _ & _ & Hp & _). done.
Qed.

(** C9 (atomic values).  A date, a regular expression and a value tagged
    as a react element are not cloneable; [cloneIfPossible] returns such a
    value itself and allocates nothing; and in a merge of two objects a key
    of the override that holds such a value is a plain assignment of that
    value, without a recursive merge: when the merge returns, the result
    holds under that key the very value of the override, and the cells
    that existed, the atomic one among them, are unchanged.  So
    [merge({d: {x: 1}}, {d: date})] is [{d: date}] with the same date. *)
Theorem atomic_values_are_not_cloned :
  (forall h v,
     atomic h v ->
     isCloneable h v = false
     /\ cloneIfPossible v h = Ret v h
     /\ (forall merge object1 object2 clone key,
           get_prop h object2 (Name key) = Some v ->
           merge_key merge object1 object2 clone key h
           = (write clone (Name key) v ;;; ret clone) h)
     /\ (forall fuel object1 object2 keys key r h',
           isArray h object1 = false ->
           isArray h object2 = false ->
           object_keys h object2 = Some keys ->
           key ∈ keys ->
           get_prop h object2 (Name key) = Some v ->
           getDeeplyMergedObject fuel object1 object2 h = Ret r h' ->
           get_prop h' r (Name key) = Some v
           /\ forall a c, h !! a = Some c -> h' !! a = Some c))
  /\ atomic heap_D (VRef 0)
  /\ atomic heap_R (VRef 0)
  /\ atomic heap_R (VRef 1)
  /\ getDeeplyMergedObject 1 (VRef 2) (VRef 3) heap_D
     = Ret (VRef 4)
           (heap_D ++ [Obj Plain [("d", VRef 0)]; Obj Plain [("x", VNum 1)]]).
Proof.
  split_and!.
  - intros h v Hat. pose proof (atomic_not_cloneable h v Hat) as Hno.
    split_and!; [done | by apply cloneIfPossible_atom | |].
    + intros merge object1 object2 clone key Hget.
      unfold merge_key, bind, read, inspect, ret. by rewrite Hget, Hno.
    + intros fuel object1 object2 keys key r h' H1 H2 Hkeys Hin Hget Hrun.
      destruct fuel as [|fuel]; [done|].
      destruct (merge_objects_spec fuel object1 object2 h r h'
                  (getDeeplyMergedObject_frame fuel) H1 H2 Hrun)
        as (keys2 & ps' & Hkeys2 & -> & Hp & Hcell & Hatom).
      rewrite Hkeys in Hkeys2. injection Hkeys2 as <-.
      split.
      * simpl. rewrite Hcell. simpl. by rewrite (Hatom key v Hget Hat Hin).
      * intros a c Ha. by apply (prefix_lookup h).
  - by left.
  - right. by left.
  - right. by right.
  - by vm_compute.
Qed.

Lemma atomic_values_are_not_cloned_witness :
  isCloneable heap_D (VRef 0) = false
  /\ cloneIfPossible (VRef 0) heap_D = Ret (VRef 0) heap_D
  /\ (forall merge object1 object2 clone key,
        get_prop heap_D object2 (Name key) = Some (VRef 0) ->
        merge_key merge object1 object2 clone key heap_D
        = (write clone (Name key) (VRef 0) ;;; ret clone) heap_D)
  /\ (forall fuel object1 object2 keys key r h',
        isArray heap_D object1 = false ->
        isArray heap_D object2 = false ->
        object_keys heap_D object2 = Some keys ->
        key ∈ keys ->
        get_prop heap_D object2 (Name key) = Some (VRef 0) ->
        getDeeplyMergedObject fuel object1 object2 heap_D = Ret r h' ->
        get_prop h' r (Name key) = Some (VRef 0)
        /\ forall a c, heap_D !! a = Some c -> h' !! a = Some c).
Proof.
  apply (proj1 atomic_values_are_not_cloned heap_D (VRef 0)).
  by left.
Defined.

(* ===================================================================== *)
(** * The embedding at work *)
(* ===================================================================== *)

(** Names that are canonical decimal numbers address the elements of an
    array; other names address its named properties. *)
Example name_index_examples :
  name_index "12" = Some 12%nat /\ name_index "012" = None
  /\ name_index "y" = None /\ array_slot (Name "0") = array_slot (Index 0).
Proof. by vm_compute. Qed.

(** Writing past the end of an array grows it. *)
Example cell_set_grows :
  cell_set (Arr [VNum 1] []) (Index 3) (VNum 9)
  = Arr [VNum 1; VUndef; VUndef; VNum 9] [].
Proof. reflexivity. Qed.

(** [merge({a: {x: 1}}, {a: {y: 2}})] is [{a: {x: 1, y: 2}}]. *)
Example merge_mappings :
  exists h',
    getDeeplyMergedObject 2 (VRef 1) (VRef 3)
      [ Obj Plain [("x", VNum 1)]; Obj Plain [("a", VRef 0)];
        Obj Plain [("y", VNum 2)]; Obj Plain [("a", VRef 2)] ]
    = Ret (VRef 4) h'
    /\ h' !! 4%nat = Some (Obj Plain [("a", VRef 6)])
    /\ h' !! 6%nat = Some (Obj Plain [("x", VNum 1); ("y", VNum 2)]).
Proof. eexists. by vm_compute. Qed.

(** On an empty path the walker in write mode never reaches its terminal
    step: every index is past the end, and the recursion only stops when
    the stack is exhausted.  This is why the properties of writes ask for a
    non-empty path. *)
Lemma onMatchAtPath_past_the_end path (onMatch : callback) noMatchValue fuel :
  forall index a c h,
    (length path <= index)%nat ->
    h !! a = Some c ->
    onMatchAtPath fuel path (VRef a) onMatch true noMatchValue index h
    = Throw StackOverflow.
Proof.
  induction fuel as [|fuel IH]; intros index a c h Hidx Ha; [done|].
  simpl. rewrite decide_False by lia.
  rewrite (bind_Ret _ _ _ _ _ (read_ref h a c _ Ha)).
  destruct (getNewChildClone_fresh h (cell_get c (path_at path index))
              (path_at path (S index))) as (r & h1 & c1 & Hnew & _ & _ & Hc1).
  rewrite (bind_Ret _ _ _ _ _ Hnew).
  apply bind_Throw. apply (IH (S index) r c1 h1); [lia | done].
Qed.

Lemma setAtPath_empty_path fuel v root h :
  setAtPath fuel [] v root h = Throw StackOverflow.
Proof.
  unfold setAtPath, getDeepClone. unfold bind at 1. rewrite inspect_Ret.
  assert (Htop : exists c,
    (if isCloneable h root then getShallowClone root
     else getNewEmptyChild (path_at [] 0)) h
    = Ret (VRef (length h)) (h ++ [c])).
  { destruct (isCloneable h root) eqn:Hc.
    - destruct (isCloneable_ref _ _ Hc) as (a & c0 & -> & Ha).
      exists (clone_cell c0). by apply getShallowClone_ref.
    - by eexists. }
  destruct Htop as (c & Htop). rewrite (bind_Ret _ _ _ _ _ Htop).
  simpl decide. cbn iota.
  apply (onMatchAtPath_past_the_end [] (assign v) VUndef fuel 0 (length h) c);
    [simpl; lia | apply lookup_snoc].
Qed.

(* ===================================================================== *)
(** * The container factory: clones *)
(* ===================================================================== *)

(** An object is classed by what its [constructor] is (its [shape]): an
    object that hides the inherited [constructor] behind an own property
    of that name is outside the fragment. *)



(** The name of an index is an index. *)
Lemma name_index_string_of_index n : name_index (string_of_index n) = Some n.
Proof.
  unfold name_index, string_of_index. rewrite NilZero.usu.
  - cbn zeta. rewrite Unsigned.of_to. by rewrite decide_True.
  - intros Hnil. pose proof (Unsigned.to_of (Nat.to_uint n)) as H.
    by rewrite Unsigned.of_to, Hnil in H.
Qed.

(** X2.  The shallow clone of an array is a new array with the same
    elements and without the named properties of the original: its keys
    are the indices alone, so that no name that is not an index is a key
    of the clone. *)
Theorem getShallowClone_array_drops_named h a es named :
  h !! a = Some (Arr es named) ->
  exists r h',
    getShallowClone (VRef a) h = Ret (VRef r) h'
    /\ h !! r = None
    /\ h `prefix_of` h'
    /\ isArray h' (VRef r) = true
    /\ elements h' (VRef r) = es
    /\ object_keys h' (VRef r)
       = Some (map string_of_index (seq 0 (length es)))
    /\ (forall s keys, name_index s = None ->
                       object_keys h' (VRef r) = Some keys -> s ∉ keys).
Proof.
  intros Ha. exists (length h), (h ++ [clone_cell (Arr es named)]).
  split_and!.
  - by apply getShallowClone_ref.
  - by apply lookup_ge_None_2.
  - apply prefix_snoc.
  - unfold isArray. by rewrite lookup_snoc.
  - unfold elements. by rewrite lookup_snoc.
  - unfold object_keys. rewrite lookup_snoc. simpl. by rewrite app_nil_r.
  - intros s keys Hs Hkeys Hin. unfold object_keys in Hkeys.
    rewrite lookup_snoc in Hkeys. simpl in Hkeys. injection Hkeys as <-.
    rewrite app_nil_r in Hin. apply list_elem_of_In, in_map_iff in Hin.
    destruct Hin as (n & <- & _). by rewrite name_index_string_of_index in Hs.
Qed.

Lemma getShallowClone_array_drops_named_witness :
  exists r h',
    getShallowClone (VRef 0) heap_A = Ret (VRef r) h'
    /\ heap_A !! r = None
    /\ heap_A `prefix_of` h'
    /\ isArray h' (VRef r) = true
    /\ elements h' (VRef r) = [VNum 1; VNum 2]
    /\ object_keys h' (VRef r)
       = Some (map string_of_index (seq 0 (length [VNum 1; VNum 2])))
    /\ (forall s keys, name_index s = None ->
                       object_keys h' (VRef r) = Some keys -> s ∉ keys).
Proof.
  apply (getShallowClone_array_drops_named heap_A 0 [VNum 1; VNum 2]
           [("tag", VStr "t")]).
  reflexivity.
Defined.





(* ===================================================================== *)
(** * Writes: any callback, kinds and cells *)
(* ===================================================================== *)













(* ===================================================================== *)
(** * Reads: the walker, get and has *)
(* ===================================================================== *)

Lemma bind_ret_r {A} (m : M A) h : bind m ret h = m h.
Proof. unfold bind, ret. by destruct (m h). Qed.

Lemma last_key_index path index :
  S index = length path -> path_at path index = last_key path.
Proof. intros Hlast. unfold last_key. f_equal. lia. Qed.

(** The walker in read mode, from any index. *)
Lemma walker_read (onMatch : callback) noMatchValue path fuel :
  forall index object h,
    (index < length path)%nat ->
    (length path - index <= fuel)%nat ->
    onMatchAtPath fuel path object onMatch false noMatchValue index h
    = match parent_at h object (drop index path) with
      | Some p => onMatch p (last_key path) h
      | None => Ret noMatchValue h
      end.
Proof.
  induction fuel as [|fuel IH]; intros index object h Hidx Hfuel; [lia|].
  rewrite (drop_path_at path index Hidx). simpl onMatchAtPath.
  destruct (decide (S index = length path)) as [Hlast|Hmore].
  - rewrite (drop_ge path (S index)) by lia. cbn [parent_at].
    rewrite orb_false_r, (last_key_index path index Hlast).
    destruct (truthy object); [apply bind_ret_r | done].
  - assert (Hnext : (S index < length path)%nat) by lia.
    destruct (drop (S index) path) as [|k2 rest] eqn:Hrest.
    { apply (f_equal length) in Hrest. rewrite length_drop in Hrest.
      simpl in Hrest. lia. }
    cbn [parent_at]. destruct (truthy object) eqn:Ht; [|done].
    destruct (truthy_get_prop h object (path_at path index) Ht) as [x Hx].
    unfold bind at 1. unfold read at 1. rewrite Hx.
    destruct (truthy x) eqn:Htx.
    + rewrite (IH (S index) x h Hnext) by lia. rewrite Hrest.
      cbn [parent_at]. by rewrite Htx.
    + cbn [parent_at]. by rewrite ?Htx.
Qed.

Lemma parent_at_access h path :
  forall v p,
    parent_at h v path = Some p ->
    truthy p = true /\ access h v (take (length path - 1) path) = Some p.
Proof.
  induction path as [|k rest IH]; intros v p Hp; [done|].
  cbn [parent_at] in Hp. destruct (truthy v) eqn:Ht; [|done].
  destruct rest as [|k2 rest'].
  - injection Hp as <-. by split.
  - destruct (get_prop h v k) as [x|] eqn:Hx; [|done].
    destruct (IH x p Hp) as (Htp & Hacc). split; [done|].
    simpl in Hacc. rewrite Nat.sub_0_r in Hacc.
    cbn [length]. replace (S (S (length rest')) - 1)%nat with (S (length rest')) by lia.
    cbn [take access]. by rewrite Hx.
Qed.

Lemma access_app h q1 :
  forall v q2,
    access h v (q1 ++ q2)
    = match access h v q1 with
      | Some x => access h x q2
      | None => None
      end.
Proof.
  induction q1 as [|k q1 IH]; intros v q2; [done|].
  simpl. destruct (get_prop h v k); [apply IH | done].
Qed.

Lemma path_split_last path :
  path <> [] -> path = take (length path - 1) path ++ [last_key path].
Proof.
  intros Hne. destruct (exists_last Hne) as (q & k & ->).
  unfold last_key, path_at. rewrite length_app. simpl.
  replace (length q + 1 - 1)%nat with (length q) by lia.
  rewrite take_app_length, list_lookup_middle by done. done.
Qed.

Lemma all_truthy_parent h path :
  forall v,
    path <> [] ->
    (forall i, (i < length path)%nat ->
               exists x, access h v (take i path) = Some x /\ truthy x = true) ->
    exists p, parent_at h v path = Some p.
Proof.
  induction path as [|k rest IH]; intros v Hne Hall; [done|].
  cbn [parent_at].
  destruct (Hall 0%nat) as (x0 & Hx0 & Ht0); [simpl; lia|].
  simpl in Hx0. injection Hx0 as <-. rewrite Ht0.
  destruct rest as [|k2 rest']; [by eexists|].
  destruct (Hall 1%nat) as (x1 & Hx1 & _); [simpl; lia|].
  simpl in Hx1. destruct (get_prop h v k) as [x|] eqn:Hx; [|done].
  apply IH; [done|]. intros i Hi.
  destruct (Hall (S i)) as (y & Hy & Hty); [simpl in *; lia|].
  cbn [take access] in Hy. rewrite Hx in Hy. by exists y.
Qed.

(** [getNestedProperty] and [hasNestedProperty] in closed form. *)
Lemma getNestedProperty_formula fuel path root h :
  path <> [] ->
  (length path <= fuel)%nat ->
  getNestedProperty fuel path root h = Ret (guarded_get h root path) h.
Proof.
  intros Hne Hfuel. unfold getNestedProperty, guarded_get.
  destruct (decide (length path = 1%nat)) as [Hone|Hmany].
  - destruct path as [|k [|k2 rest]]; try done. cbn [parent_at].
    destruct (truthy root) eqn:Ht; [|done].
    destruct (truthy_get_prop h root k Ht) as [x Hx].
    unfold read. change (path_at [k] 0) with k. change (last_key [k]) with k.
    by rewrite Hx.
  - assert (Hlen : (0 < length path)%nat) by (destruct path; simpl; [done|lia]).
    rewrite walker_read by lia. rewrite drop_0.
    destruct (parent_at h root path) as [p|] eqn:Hp; [|done].
    destruct (parent_at_access _ _ _ _ Hp) as (Htp & _).
    destruct (truthy_get_prop h p (last_key path) Htp) as [x Hx].
    unfold read. by rewrite Hx.
Qed.

Lemma hasNestedProperty_formula fuel path root h :
  path <> [] ->
  (length path <= fuel)%nat ->
  hasNestedProperty fuel path root h
  = Ret (VBool (negb (strict_eq (guarded_get h root path) VUndef))) h.
Proof.
  intros Hne Hfuel. unfold hasNestedProperty, guarded_get.
  destruct (decide (length path = 1%nat)) as [Hone|Hmany].
  - destruct path as [|k [|k2 rest]]; try done. cbn [parent_at].
    destruct (truthy root) eqn:Ht; [|done].
    destruct (truthy_get_prop h root k Ht) as [x Hx].
    unfold bind, read, ret. change (path_at [k] 0) with k.
    change (last_key [k]) with k. by rewrite Hx.
  - assert (Hlen : (0 < length path)%nat) by (destruct path; simpl; [done|lia]).
    rewrite walker_read by lia. rewrite drop_0.
    destruct (parent_at h root path) as [p|] eqn:Hp; [|done].
    destruct (parent_at_access _ _ _ _ Hp) as (Htp & _). rewrite Htp.
    destruct (truthy_get_prop h p (last_key path) Htp) as [x Hx].
    unfold bind, read, ret. by rewrite Hx.
Qed.

(** X10.  The walker in read mode, for every terminal callback and every
    [noMatchValue]: when the root and every value on the way to the
    container of the last key are truthy, the result is that of the
    callback called once on that container and the last key; otherwise it
    is [noMatchValue], the callback is not called and the heap is as it
    was.  That container is what the path without its last key reaches. *)
Theorem onMatchAtPath_read_mode (onMatch : callback) noMatchValue fuel path
    object h :
  path <> [] ->
  (length path <= fuel)%nat ->
  onMatchAtPath fuel path object onMatch false noMatchValue 0 h
  = match parent_at h object path with
    | Some p => onMatch p (last_key path) h
    | None => Ret noMatchValue h
    end
  /\ forall p, parent_at h object path = Some p ->
       truthy p = true
       /\ access h object (take (length path - 1) path) = Some p.
Proof.
  intros Hne Hfuel.
  assert (Hlen : (0 < length path)%nat) by (destruct path; simpl; [done|lia]).
  split.
  - rewrite walker_read by lia. by rewrite drop_0.
  - intros p Hp. by apply parent_at_access.
Qed.

Lemma onMatchAtPath_read_mode_witness :
  onMatchAtPath 2 [Name "a"; Name "b"] (VRef 2)
    (fun ref key => read ref key) false (VStr "none") 0 heap_T
  = match parent_at heap_T (VRef 2) [Name "a"; Name "b"] with
    | Some p => read p (last_key [Name "a"; Name "b"]) heap_T
    | None => Ret (VStr "none") heap_T
    end
  /\ forall p, parent_at heap_T (VRef 2) [Name "a"; Name "b"] = Some p ->
       truthy p = true
       /\ access heap_T (VRef 2)
            (take (length [Name "a"; Name "b"] - 1) [Name "a"; Name "b"])
          = Some p.
Proof.
  apply (onMatchAtPath_read_mode (fun ref key => read ref key) (VStr "none") 2
           [Name "a"; Name "b"] (VRef 2) heap_T);
    [discriminate | simpl; lia].
Defined.

(** X11.  For every root and every non-empty path, [getNestedProperty]
    and [hasNestedProperty] return, without a TypeError and without
    touching the heap, and [has] is true exactly when [get] is not
    [undefined]: [has(path, o) === (get(path, o) !== undefined)]. *)
Theorem hasNestedProperty_iff_get_defined fuel path root h :
  path <> [] ->
  (length path <= fuel)%nat ->
  exists v,
    getNestedProperty fuel path root h = Ret v h
    /\ hasNestedProperty fuel path root h
       = Ret (VBool (negb (strict_eq v VUndef))) h.
Proof.
  intros Hne Hfuel. exists (guarded_get h root path). split.
  - by apply getNestedProperty_formula.
  - by apply hasNestedProperty_formula.
Qed.

Lemma hasNestedProperty_iff_get_defined_witness :
  exists v,
    getNestedProperty 2 [Name "a"; Name "b"] VNull [] = Ret v []
    /\ hasNestedProperty 2 [Name "a"; Name "b"] VNull []
       = Ret (VBool (negb (strict_eq v VUndef))) [].
Proof.
  apply (hasNestedProperty_iff_get_defined 2 [Name "a"; Name "b"] VNull []);
    [discriminate | simpl; lia].
Defined.

(** X12.  [getNestedProperty] against the plain chain of property reads
    [root[k1]...[kn]]: what it returns is [undefined] or exactly what the
    chain gives, and it is what the chain gives whenever the root and
    every value that a proper prefix of the path reaches are truthy. *)
Theorem getNestedProperty_guards_access fuel path root h :
  path <> [] ->
  (length path <= fuel)%nat ->
  exists v,
    getNestedProperty fuel path root h = Ret v h
    /\ (v <> VUndef -> access h root path = Some v)
    /\ ((forall i, (i < length path)%nat ->
           exists x, access h root (take i path) = Some x /\ truthy x = true) ->
        access h root path = Some v).
Proof.
  intros Hne Hfuel. exists (guarded_get h root path).
  split; [by apply getNestedProperty_formula|].
  assert (Hparent : forall p, parent_at h root path = Some p ->
            access h root path = Some (guarded_get h root path)).
  { intros p Hp. unfold guarded_get. rewrite Hp.
    destruct (parent_at_access _ _ _ _ Hp) as (Htp & Hacc).
    destruct (truthy_get_prop h p (last_key path) Htp) as [x Hx].
    rewrite (path_split_last path Hne) at 1.
    rewrite access_app, Hacc. simpl. by rewrite Hx. }
  split.
  - intros Hv. destruct (parent_at h root path) as [p|] eqn:Hp; [by eapply Hparent|].
    unfold guarded_get in Hv. by rewrite Hp in Hv.
  - intros Hall. destruct (all_truthy_parent h path root Hne Hall) as [p Hp].
    by eapply Hparent.
Qed.

Lemma getNestedProperty_guards_access_witness :
  exists v,
    getNestedProperty 2 [Name "c"; Name "d"] (VRef 2) heap_T = Ret v heap_T
    /\ (v <> VUndef -> access heap_T (VRef 2) [Name "c"; Name "d"] = Some v)
    /\ ((forall i, (i < length [Name "c"; Name "d"])%nat ->
           exists x, access heap_T (VRef 2) (take i [Name "c"; Name "d"]) = Some x
                     /\ truthy x = true) ->
        access heap_T (VRef 2) [Name "c"; Name "d"] = Some v).
Proof.
  apply (getNestedProperty_guards_access 2 [Name "c"; Name "d"]);
    [discriminate | simpl; lia].
Defined.



(* ===================================================================== *)
(** * Merge: what the result holds *)
(* ===================================================================== *)

Lemma own_insert_is_Some s k x ps :
  is_Some (own_lookup s (own_insert k x ps)) <-> s = k \/ is_Some (own_lookup s ps).
Proof.
  destruct (decide (k = s)) as [->|Hne].
  - rewrite own_lookup_insert_eq. split; [by left | by eexists].
  - rewrite own_lookup_insert_ne by done. split; [by right|].
    by intros [->|?].
Qed.


Lemma object_keys_defined h object keys :
  object_keys h object = Some keys -> object <> VUndef /\ object <> VNull.
Proof. by destruct object. Qed.

(** The first reducer: which keys the new object has after it, and what
    it holds under the keys of the base whose value is not cloneable. *)
Lemma reduce_clone_key_content h0 object1 e keys :
  forall h sh ps r h',
    h0 `prefix_of` h ->
    (length h0 <= e)%nat ->
    h !! e = Some (Obj sh ps) ->
    reduce (clone_key object1) keys (VRef e) h = Ret r h' ->
    exists ps',
      h' !! e = Some (Obj sh ps')
      /\ (forall s, is_Some (own_lookup s ps')
                    <-> s ∈ keys \/ is_Some (own_lookup s ps))
      /\ (forall s v,
            in_heap h0 object1 ->
            get_prop h0 object1 (Name s) = Some v ->
            isCloneable h0 v = false ->
            in_heap h0 v ->
            s ∈ keys \/ own_lookup s ps = Some v ->
            own_lookup s ps' = Some v).
Proof.
  induction keys as [|k keys IH]; intros h sh ps r h' Hp He Hcell Hrun.
  - injection Hrun as <- <-. exists ps. split_and!; [done| |].
    + intros s. split; [by right|]. intros [Hin|?]; [|done].
      by apply elem_of_nil in Hin.
    + intros s v _ _ _ _ [Hin|?]; [|done]. by apply elem_of_nil in Hin.
  - simpl in Hrun. inv_bind Hrun as clone h4 Hstep. unfold clone_key in Hstep.
    inv_bind Hstep as v1 h1 Hread. apply read_inv in Hread as [Hv1 ->].
    inv_bind Hstep as c h2 Hclone. apply cloneIfPossible_prefix in Hclone as Hp1.
    inv_bind Hstep as u h3 Hwrite. injection Hstep as <- <-.
    apply write_inv in Hwrite as (e' & c' & [= <-] & Hc' & ->).
    rewrite (prefix_lookup h h2 e _ Hp1 Hcell) in Hc'. injection Hc' as <-.
    apply lookup_lt_Some in Hcell as Hlt. apply prefix_length in Hp1 as Hlen.
    destruct (IH (<[e := cell_set (Obj sh ps) (Name k) c]> h2) sh
                (own_insert k c ps) r h') as (ps' & Hps' & Hkeys & Hval);
      [ apply prefix_insert_fresh; [by etrans | done]
      | done
      | simpl; apply list_lookup_insert_eq; lia
      | exact Hrun |].
    exists ps'. split_and!; [done| |].
    + intros s. rewrite Hkeys, own_insert_is_Some, elem_of_cons. tauto.
    + intros s v Hin1 Hget Hno Hinv Hs. apply (Hval s v Hin1 Hget Hno Hinv).
      destruct (decide (k = s)) as [->|Hne].
      * right. rewrite (get_prop_prefix h0) in Hv1 by done.
        rewrite Hget in Hv1. injection Hv1 as <-.
        rewrite cloneIfPossible_atom in Hclone
          by (by rewrite (isCloneable_prefix h0)).
        injection Hclone as <- _. apply own_lookup_insert_eq.
      * destruct Hs as [Hin|Hps].
        -- left. by apply elem_of_cons in Hin as [->|Hin].
        -- right. by rewrite own_lookup_insert_ne.
Qed.

(** The second reducer: which keys the new object has after it, that the
    other keys hold what they held, and what it holds under the keys of the
    override whose value is not cloneable. *)
Lemma reduce_merge_key_content (merge : value -> value -> M value)
    h0 object1 object2 e keys :
  (forall x y h r h', merge x y h = Ret r h' -> h `prefix_of` h') ->
  forall h sh ps r h',
    h0 `prefix_of` h ->
    (length h0 <= e)%nat ->
    h !! e = Some (Obj sh ps) ->
    reduce (merge_key merge object1 object2) keys (VRef e) h = Ret r h' ->
    exists ps',
      h' !! e = Some (Obj sh ps')
      /\ (forall s, is_Some (own_lookup s ps')
                    <-> s ∈ keys \/ is_Some (own_lookup s ps))
      /\ (forall s, s ∉ keys -> own_lookup s ps' = own_lookup s ps)
      /\ (forall s v,
            in_heap h0 object2 ->
            get_prop h0 object2 (Name s) = Some v ->
            isCloneable h0 v = false ->
            in_heap h0 v ->
            s ∈ keys \/ own_lookup s ps = Some v ->
            own_lookup s ps' = Some v).
Proof.
  intros Hframe.
  induction keys as [|k keys IH]; intros h sh ps r h' Hp He Hcell Hrun.
  - injection Hrun as <- <-. exists ps. split_and!; [done| |done|].
    + intros s. split; [by right|]. intros [Hin|?]; [|done].
      by apply elem_of_nil in Hin.
    + intros s v _ _ _ _ [Hin|?]; [|done]. by apply elem_of_nil in Hin.
  - simpl in Hrun. inv_bind Hrun as clone h5 Hstep. unfold merge_key in Hstep.
    inv_bind Hstep as v2 h1 Hread. apply read_inv in Hread as [Hv2 ->].
    inv_bind Hstep as c h2 Hinsp. apply inspect_inv in Hinsp as [-> ->].
    inv_bind Hstep as x h3 Hval.
    inv_bind Hstep as u h4 Hwrite. injection Hstep as <- <-.
    assert (Hp1 : h `prefix_of` h3).
    { destruct (isCloneable h v2).
      - inv_bind Hval as v1 h6 Hread1. apply read_inv in Hread1 as [_ ->].
        by eapply Hframe.
      - by injection Hval as <- <-. }
    apply write_inv in Hwrite as (e' & c' & [= <-] & Hc' & ->).
    rewrite (prefix_lookup h h3 e _ Hp1 Hcell) in Hc'. injection Hc' as <-.
    apply lookup_lt_Some in Hcell as Hlt. apply prefix_length in Hp1 as Hlen.
    destruct (IH (<[e := cell_set (Obj sh ps) (Name k) x]> h3) sh
                (own_insert k x ps) r h') as (ps' & Hps' & Hkeys & Hrest & Hwin);
      [ apply prefix_insert_fresh; [by etrans | done]
      | done
      | simpl; apply list_lookup_insert_eq; lia
      | exact Hrun |].
    exists ps'. split_and!; [done| | |].
    + intros s. rewrite Hkeys, own_insert_is_Some, elem_of_cons. tauto.
    + intros s Hs. apply not_elem_of_cons in Hs as [Hne Hs].
      rewrite (Hrest s Hs). by apply own_lookup_insert_ne.
    + intros s v Hin2 Hget Hno Hinv Hs. apply (Hwin s v Hin2 Hget Hno Hinv).
      destruct (decide (k = s)) as [->|Hne].
      * right. rewrite (get_prop_prefix h0) in Hv2 by done.
        rewrite Hget in Hv2. injection Hv2 as <-.
        rewrite (isCloneable_prefix h0), Hno in Hval by done.
        injection Hval as <- _. apply own_lookup_insert_eq.
      * destruct Hs as [Hin|Hps].
        -- left. by apply elem_of_cons in Hin as [->|Hin].
        -- right. by rewrite own_lookup_insert_ne.
Qed.

(** The merge of two values that are not arrays: the object it builds. *)
Lemma merge_objects_content fuel object1 object2 h r h' :
  isArray h object1 = false ->
  isArray h object2 = false ->
  getDeeplyMergedObject fuel object1 object2 h = Ret r h' ->
  exists keys1 keys2 ps',
    object_keys h object1 = Some keys1
    /\ object_keys h object2 = Some keys2
    /\ r = VRef (length h)
    /\ h `prefix_of` h'
    /\ h' !! length h = Some (Obj Plain ps')
    /\ (forall s, is_Some (own_lookup s ps') <-> s ∈ keys1 \/ s ∈ keys2)
    /\ (forall s v,
          in_heap h object2 ->
          get_prop h object2 (Name s) = Some v ->
          isCloneable h v = false ->
          in_heap h v ->
          s ∈ keys2 ->
          own_lookup s ps' = Some v)
    /\ (forall s v,
          in_heap h object1 ->
          get_prop h object1 (Name s) = Some v ->
          isCloneable h v = false ->
          in_heap h v ->
          s ∈ keys1 ->
          s ∉ keys2 ->
          own_lookup s ps' = Some v).
Proof.
  intros H1 H2 Hrun. destruct fuel as [|fuel]; [done|].
  pose proof (getDeeplyMergedObject_frame _ _ _ _ _ _ Hrun) as Hp.
  simpl in Hrun.
  inv_bind Hrun as b1 h1 Hi1. apply inspect_inv in Hi1 as [-> ->].
  inv_bind Hrun as b2 h2 Hi2. apply inspect_inv in Hi2 as [-> ->].
  rewrite H1, H2 in Hrun. simpl in Hrun.
  inv_bind Hrun as keys2 h3 Hk2. unfold inspect_opt in Hk2.
  destruct (object_keys h object2) as [keys2'|] eqn:Hkeys2; [|done].
  injection Hk2 as <- <-.
  inv_bind Hrun as keys1 h4 Hk1. unfold inspect_opt in Hk1.
  destruct (object_keys h object1) as [keys1'|] eqn:Hkeys1; [|done].
  injection Hk1 as <- <-.
  inv_bind Hrun as empty h5 Hal. injection Hal as <- <-.
  inv_bind Hrun as base h6 Hbase.
  destruct (reduce_clone_key_spec h object1 (length h) keys1' _ Plain [] _ _
              (prefix_snoc h _) (le_n _) (lookup_snoc h _) Hbase)
    as (-> & Hp1 & _).
  destruct (reduce_clone_key_content h object1 (length h) keys1' _ Plain [] _ _
              (prefix_snoc h _) (le_n _) (lookup_snoc h _) Hbase)
    as (ps1 & Hps1 & Hkeys1' & Hval1).
  destruct (reduce_merge_key_spec _ h object1 object2 (length h) keys2'
              (getDeeplyMergedObject_frame fuel)
              _ Plain ps1 _ _ Hp1 (le_n _) Hps1 Hrun)
    as (-> & _ & _).
  destruct (reduce_merge_key_content _ h object1 object2 (length h) keys2'
              (getDeeplyMergedObject_frame fuel)
              _ Plain ps1 _ _ Hp1 (le_n _) Hps1 Hrun)
    as (ps' & Hps' & Hkeys2' & Hrest & Hwin).
  exists keys1', keys2', ps'. split_and!; try done.
  - intros s. rewrite Hkeys2', Hkeys1'. split.
    + intros [?|[?|[? Hnil]]]; [by right | by left | done].
    + intros [?|?]; [right; by left | by left].
  - intros s v Hin Hget Hno Hinv Hs. apply (Hwin s v Hin Hget Hno Hinv). by left.
  - intros s v Hin Hget Hno Hinv Hs1 Hs2. rewrite (Hrest s Hs2).
    apply (Hval1 s v Hin Hget Hno Hinv). by left.
Qed.

(** X14.  Whatever it is given, [getDeeplyMergedObject] changes no cell
    that exists: base and override are after the merge what they were
    before.  What it returns is the override itself, with nothing
    allocated, or a reference to a cell that did not exist before. *)
Theorem getDeeplyMergedObject_mutates_nothing fuel object1 object2 h r h' :
  getDeeplyMergedObject fuel object1 object2 h = Ret r h' ->
  (forall a c, h !! a = Some c -> h' !! a = Some c)
  /\ ((r = object2 /\ h' = h)
      \/ exists a, r = VRef a /\ h !! a = None /\ is_Some (h' !! a)).
Proof.
  intros Hrun. split.
  { intros a c Ha. eapply prefix_lookup; [|exact Ha].
    by eapply getDeeplyMergedObject_frame. }
  destruct fuel as [|fuel]; [done|].
  assert (Hclone : cloneIfPossible object2 h = Ret r h' ->
            (r = object2 /\ h' = h)
            \/ exists a, r = VRef a /\ h !! a = None /\ is_Some (h' !! a)).
  { intros Hcl. destruct (isCloneable h object2) eqn:Hc.
    - destruct (isCloneable_ref _ _ Hc) as (a & ce & -> & Ha).
      rewrite (cloneIfPossible_clone h a ce Hc Ha) in Hcl.
      injection Hcl as <- <-. right. exists (length h). split_and!; [done| |].
      + by apply lookup_ge_None_2.
      + rewrite lookup_snoc. by eexists.
    - rewrite (cloneIfPossible_atom h _ Hc) in Hcl. injection Hcl as <- <-.
      by left. }
  destruct (isArray h object1) eqn:H1, (isArray h object2) eqn:H2.
  - simpl in Hrun.
    inv_bind Hrun as b1 h1 Hi1. apply inspect_inv in Hi1 as [-> ->].
    inv_bind Hrun as b2 h2 Hi2. apply inspect_inv in Hi2 as [-> ->].
    rewrite H1, H2 in Hrun. simpl in Hrun.
    inv_bind Hrun as es1 h3 Hi3. apply inspect_inv in Hi3 as [-> ->].
    inv_bind Hrun as es2 h4 Hi4. apply inspect_inv in Hi4 as [-> ->].
    inv_bind Hrun as clones h5 Hmap.
    destruct (map_m_cloneIfPossible h (elements h object2) h)
      as (clones' & h1 & Hmap' & Hp & _); [done|].
    rewrite Hmap' in Hmap. injection Hmap as <- <-.
    injection Hrun as <- <-. right. exists (length h1). split_and!; [done| |].
    + apply lookup_ge_None_2. by apply prefix_length.
    + rewrite lookup_snoc. by eexists.
  - simpl in Hrun.
    inv_bind Hrun as b1 h1 Hi1. apply inspect_inv in Hi1 as [-> ->].
    inv_bind Hrun as b2 h2 Hi2. apply inspect_inv in Hi2 as [-> ->].
    rewrite H1, H2 in Hrun. simpl in Hrun. by apply Hclone.
  - simpl in Hrun.
    inv_bind Hrun as b1 h1 Hi1. apply inspect_inv in Hi1 as [-> ->].
    inv_bind Hrun as b2 h2 Hi2. apply inspect_inv in Hi2 as [-> ->].
    rewrite H1, H2 in Hrun. simpl in Hrun. by apply Hclone.
  - destruct (merge_objects_content _ _ _ _ _ _ H1 H2 Hrun)
      as (keys1 & keys2 & ps' & _ & _ & -> & _ & Hcell & _).
    right. exists (length h). split_and!; [done| |by eexists].
    by apply lookup_ge_None_2.
Qed.

Lemma getDeeplyMergedObject_mutates_nothing_witness :
  (forall a c, heap_F !! a = Some c -> heap_F_merged !! a = Some c)
  /\ ((VRef 3 = VRef 2 /\ heap_F_merged = heap_F)
      \/ exists a, VRef 3 = VRef a /\ heap_F !! a = None
           /\ is_Some (heap_F_merged !! a)).
Proof.
  apply (getDeeplyMergedObject_mutates_nothing 1 (VRef 1) (VRef 2) heap_F).
  reflexivity.
Defined.

(** X15.  When neither base nor override is an array, neither owns a
    property named [__proto__], and the merge returns, the result is a new
    plain object, whatever the shape of the base was, and its keys are
    exactly the keys of the base together with the keys of the override. *)
Theorem getDeeplyMergedObject_objects_keys fuel object1 object2 h r h' :
  isArray h object1 = false ->
  isArray h object2 = false ->
  data_names h object1 ->
  data_names h object2 ->
  getDeeplyMergedObject fuel object1 object2 h = Ret r h' ->
  exists a keys1 keys2 ps,
    r = VRef a
    /\ h !! a = None
    /\ h' !! a = Some (Obj Plain ps)
    /\ object_keys h object1 = Some keys1
    /\ object_keys h object2 = Some keys2
    /\ forall s, is_Some (own_lookup s ps) <-> s ∈ keys1 \/ s ∈ keys2.
Proof.
  intros H1 H2 _ _ Hrun.
  destruct (merge_objects_content _ _ _ _ _ _ H1 H2 Hrun)
    as (keys1 & keys2 & ps' & Hk1 & Hk2 & -> & _ & Hcell & Hkeys & _).
  exists (length h), keys1, keys2, ps'. split_and!; try done.
  by apply lookup_ge_None_2.
Qed.

Lemma getDeeplyMergedObject_objects_keys_witness :
  exists a keys1 keys2 ps,
    VRef 1 = VRef a
    /\ heap_U !! a = None
    /\ (heap_U ++ [Obj Plain [("p", VNum 1); ("q", VNum 2)]]) !! a
       = Some (Obj Plain ps)
    /\ object_keys heap_U (VRef 0) = Some keys1
    /\ object_keys heap_U (VNum 5) = Some keys2
    /\ forall s, is_Some (own_lookup s ps) <-> s ∈ keys1 \/ s ∈ keys2.
Proof.
  apply (getDeeplyMergedObject_objects_keys 1 (VRef 0) (VNum 5) heap_U);
    try reflexivity.
  - intros keys [= <-]. not_in_list.
  - intros keys [= <-]. not_in_list.
Defined.

(** X16.  When neither base nor override is an array, neither owns a
    property named [__proto__], and the merge returns, a key of the
    override whose value is not cloneable holds in the result that value,
    whatever the base holds there; and a key of the base alone whose value
    is not cloneable keeps its value. *)
Theorem getDeeplyMergedObject_plain_values :
  (forall fuel object1 object2 h r h' keys2 s v,
     isArray h object1 = false ->
     isArray h object2 = false ->
     data_names h object1 ->
     data_names h object2 ->
     getDeeplyMergedObject fuel object1 object2 h = Ret r h' ->
     in_heap h object2 ->
     object_keys h object2 = Some keys2 ->
     s ∈ keys2 ->
     get_prop h object2 (Name s) = Some v ->
     isCloneable h v = false ->
     in_heap h v ->
     get_prop h' r (Name s) = Some v)
  /\ (forall fuel object1 object2 h r h' keys1 keys2 s v,
        isArray h object1 = false ->
        isArray h object2 = false ->
        data_names h object1 ->
        data_names h object2 ->
        getDeeplyMergedObject fuel object1 object2 h = Ret r h' ->
        in_heap h object1 ->
        object_keys h object1 = Some keys1 ->
        object_keys h object2 = Some keys2 ->
        s ∈ keys1 ->
        s ∉ keys2 ->
        get_prop h object1 (Name s) = Some v ->
        isCloneable h v = false ->
        in_heap h v ->
        get_prop h' r (Name s) = Some v).
Proof.
  split.
  - intros fuel object1 object2 h r h' keys2 s v H1 H2 _ _ Hrun Hin Hk2 Hs Hget
      Hno Hinv.
    destruct (merge_objects_content _ _ _ _ _ _ H1 H2 Hrun)
      as (keys1' & keys2' & ps' & _ & Hk2' & -> & _ & Hcell & _ & Hwin & _).
    rewrite Hk2 in Hk2'. injection Hk2' as <-.
    simpl. rewrite Hcell. simpl. by rewrite (Hwin s v Hin Hget Hno Hinv Hs).
  - intros fuel object1 object2 h r h' keys1 keys2 s v H1 H2 _ _ Hrun Hin Hk1
      Hk2 Hs1 Hs2 Hget Hno Hinv.
    destruct (merge_objects_content _ _ _ _ _ _ H1 H2 Hrun)
      as (keys1' & keys2' & ps' & Hk1' & Hk2' & -> & _ & Hcell & _ & _ & Hkeep).
    rewrite Hk1 in Hk1'. injection Hk1' as <-.
    rewrite Hk2 in Hk2'. injection Hk2' as <-.
    simpl. rewrite Hcell. simpl.
    by rewrite (Hkeep s v Hin Hget Hno Hinv Hs1 Hs2).
Qed.

Lemma getDeeplyMergedObject_plain_values_witness :
  get_prop heap_F_merged (VRef 3) (Name "a") = Some (VNum 2)
  /\ get_prop heap_F_merged (VRef 3) (Name "k") = Some (VBool true).
Proof.
  split.
  - apply (proj1 getDeeplyMergedObject_plain_values 1 (VRef 1) (VRef 2) heap_F
             (VRef 3) heap_F_merged ["a"; "c"] "a" (VNum 2)); try reflexivity.
    + intros keys [= <-]. not_in_list.
    + intros keys [= <-]. not_in_list.
    + simpl. lia.
    + by left.
  - apply (proj2 getDeeplyMergedObject_plain_values 1 (VRef 1) (VRef 2) heap_F
             (VRef 3) heap_F_merged ["a"; "b"; "k"] ["a"; "c"] "k" (VBool true));
      try reflexivity.
    + intros keys [= <-]. not_in_list.
    + intros keys [= <-]. not_in_list.
    + simpl. lia.
    + right. right. by left.
    + not_in_list.
Defined.






(* ===================================================================== *)
(** * curry *)
(* ===================================================================== *)

Lemma curry_calls_waiting {A B} (fn_length : nat) (fn : list A -> B) calls :
  forall args,
    (length (args ++ concat calls) < fn_length)%nat ->
    curry_calls fn_length fn args calls = Some (Waiting (args ++ concat calls)).
Proof.
  induction calls as [|c calls IH]; intros args Hlen; simpl.
  - by rewrite app_nil_r.
  - simpl in Hlen. unfold curried. rewrite decide_False.
    + rewrite IH; rewrite <- app_assoc; [done | exact Hlen].
    + rewrite !length_app in *. lia.
Qed.

Lemma curry_calls_applied {A B} (fn_length : nat) (fn : list A -> B) calls last :
  forall args,
    (length (args ++ concat calls) < fn_length)%nat ->
    (fn_length <= length (args ++ concat calls ++ last))%nat ->
    curry_calls fn_length fn args (calls ++ [last])
    = Some (Applied (fn (args ++ concat calls ++ last))).
Proof.
  induction calls as [|c calls IH]; intros args Hlt Hge; simpl.
  - simpl in Hge. unfold curried. by rewrite decide_True.
  - simpl in Hlt, Hge. rewrite <- (app_assoc c) in Hge. rewrite <- (app_assoc c).
    unfold curried. rewrite decide_False.
    + rewrite IH; rewrite <- ?app_assoc; [done | exact Hlt | exact Hge].
    + rewrite !length_app in *. lia.
Qed.

(** X18.  The function that [curry(fn)] returns collects the arguments of
    successive calls: as long as fewer than [fn.length] arguments were
    given in all, a call returns a function that waits for more; the call
    with which the arguments reach [fn.length] applies [fn] once, to all
    the arguments in the order they were given, the surplus of the last
    call included. *)
Theorem curry_collects_arguments {A B} (fn_length : nat) (fn : list A -> B)
    calls last :
  (length (concat calls) < fn_length)%nat ->
  curry_calls fn_length fn [] calls = Some (Waiting (concat calls))
  /\ ((fn_length <= length (concat calls ++ last))%nat ->
      curry_calls fn_length fn [] (calls ++ [last])
      = Some (Applied (fn (concat calls ++ last)))).
Proof.
  intros Hlt. split.
  - by apply (curry_calls_waiting fn_length fn calls []).
  - intros Hge. by apply (curry_calls_applied fn_length fn calls last []).
Qed.

Lemma curry_collects_arguments_witness :
  curry_calls 3 (fun args : list nat => sum_list args) [] [[1]; []; [2]]%nat
  = Some (Waiting (concat [[1]; []; [2]]%nat))
  /\ ((3 <= length (concat [[1]; []; [2]] ++ [3; 4]))%nat ->
      curry_calls 3 (fun args : list nat => sum_list args) []
        ([[1]; []; [2]] ++ [[3; 4]])%nat
      = Some (Applied (sum_list (concat [[1]; []; [2]] ++ [3; 4])%nat))).
Proof.
  apply (curry_collects_arguments 3 (fun args : list nat => sum_list args)
           [[1]; []; [2]]%nat [3; 4]%nat).
  simpl. lia.
Defined.

(* ===================================================================== *)
(** * Edges: the empty path, and merging with nothing *)
(* ===================================================================== *)


(** X20.  Merging with nothing.  When the base is not an array and the
    base or the override is [undefined] or [null], and the override is
    not an array either, [getDeeplyMergedObject] throws a TypeError, from
    [Object.keys]; when the base is an array, an override that is
    [undefined] or [null] is returned as it is and nothing is allocated. *)
Theorem getDeeplyMergedObject_with_nothing :
  (forall fuel h object1 object2,
     isArray h object1 = false ->
     isArray h object2 = false ->
     object1 = VUndef \/ object1 = VNull \/ object2 = VUndef \/ object2 = VNull ->
     getDeeplyMergedObject (S fuel) object1 object2 h = Throw TypeError)
  /\ (forall fuel h object1 object2,
        isArray h object1 = true ->
        object2 = VUndef \/ object2 = VNull ->
        getDeeplyMergedObject (S fuel) object1 object2 h = Ret object2 h).
Proof.
  split.
  - intros fuel h object1 object2 H1 H2 Hnothing. simpl.
    unfold bind, inspect, inspect_opt. cbn beta. rewrite H1, H2. cbn.
    destruct (object_keys h object2) as [keys2|] eqn:Hk2; [|done].
    destruct (object_keys h object1) as [keys1|] eqn:Hk1; [|done].
    destruct (object_keys_defined _ _ _ Hk1), (object_keys_defined _ _ _ Hk2).
    by destruct Hnothing as [?|[?|[?|?]]].
  - intros fuel h object1 object2 H1 Hnothing. simpl.
    unfold bind, inspect. cbn beta. rewrite H1.
    by destruct Hnothing as [-> | ->].
Qed.

Lemma getDeeplyMergedObject_with_nothing_witness :
  getDeeplyMergedObject 1 VNull (VRef 0) heap_M = Throw TypeError
  /\ getDeeplyMergedObject 1 (VRef 0) VNull heap_S = Ret VNull heap_S.
Proof.
  split.
  - apply (proj1 getDeeplyMergedObject_with_nothing 0 heap_M VNull (VRef 0));
      [reflexivity | reflexivity |]. right. by left.
  - apply (proj2 getDeeplyMergedObject_with_nothing 0 heap_S (VRef 0) VNull);
      [reflexivity |]. by right.
Defined.
